(** * Verification of the [email] pack actions of st2contrib

    The development embeds the two actions of [packs/email/actions]:

    - [process_email_headers.py], class [ProcessEmailHeaders];
    - [send_html_email.py], class [SendEmail].

    Python sets of address tuples are finite sets ([gset]), dictionaries are
    finite maps ([gmap]), exceptions and [sys.exit] are an outcome type, and
    the calls into the Python library ([email.utils.parseaddr],
    [email.utils.formataddr], [re.search]) go through an interface, so that
    the general theorems hold for every behaviour of the library and the
    concrete scenarios are evaluated on a model of it. *)

From Stdlib Require Import ZArith Ascii.
From stdpp Require Import gmap strings list.

#[local] Set Warnings "-clear-no-such-hyp,-register-all".

(** ** The Python runtime *)

Module Py.

(** The exceptions the two actions can meet.  [NotModelled] is not a Python
    exception: the model of [re.search] further down answers with it on a
    pattern that uses syntax it does not cover. *)
Inductive exn : Type :=
| KeyError (msg : string)
| ValueError (msg : string)
| TypeError (msg : string)
| IOError (path : string)
| ReError (msg : string)
| SMTPException (cmd : string)
| NotModelled (what : string).

(** How a call ends: it returns, it raises, or the process exits
    ([sys.exit]). *)
Inductive outcome (A : Type) : Type :=
| Returned (a : A)
| Raised (e : exn)
| Exited (status : Z).
Global Arguments Returned {A} a.
Global Arguments Raised {A} e.
Global Arguments Exited {A} status.

Definition bind {A B : Type} (m : outcome A) (k : A → outcome B) : outcome B :=
  match m with
  | Returned a => k a
  | Raised e => Raised e
  | Exited n => Exited n
  end.

Global Instance outcome_ret : MRet outcome := @Returned.
Global Instance outcome_bind : MBind outcome := λ A B k m, bind m k.

(** Truth value of a list ([if enforce_cc:]): [None] and [[]] are both
    false, and a list stands for both here. *)
Definition truthy {A : Type} (l : list A) : bool :=
  match l with [] => false | _ :: _ => true end.

(** Truth value of a string ([if header_reply_to:]). *)
Definition nonempty (s : string) : bool :=
  match s with "" => false | String _ _ => true end.

(** The double quote character, and a string holding just it. *)
Definition dquote : ascii := Ascii.ascii_of_nat 34.
Definition dq : string := String dquote "".

(** [sep.join(l)] *)
Definition join (sep : string) (l : list string) : string := String.concat sep l.

(** [s.split(sep)] for a non-empty separator: the pieces between the
    occurrences of [sep], scanned from the left; [n] occurrences give
    [n + 1] pieces.  [skip] counts the characters of a separator that was
    just recognised and [cur] is the current piece, reversed. *)
Fixpoint split_go (sep : string) (skip : nat) (cur : string) (s : string)
  : list string :=
  match s with
  | "" => [String.rev cur]
  | String c s' =>
      match skip with
      | S k => split_go sep k cur s'
      | O =>
          if String.prefix sep s
          then String.rev cur :: split_go sep (Nat.pred (String.length sep)) "" s'
          else split_go sep 0 (String c cur) s'
      end
  end.

Definition split (sep : string) (s : string) : list string :=
  split_go sep 0 "" s.

(** [sub in s] *)
Fixpoint contains (sub s : string) : bool :=
  String.prefix sub s ||
  match s with
  | "" => false
  | String _ s' => contains sub s'
  end.

(** [set.pop()]: some element of the set (which one is not specified; the
    model takes the first of [elements]); [KeyError] on the empty set. *)
Definition set_pop `{Countable A} (s : gset A) : outcome A :=
  match elements s with
  | [] => Raised (KeyError "pop from an empty set")
  | a :: _ => Returned a
  end.

End Py.

Import Py.

(** ** The library interface *)

(** An address: [(display name, email address)], the tuple that
    [email.utils.parseaddr] returns. *)
Abbreviation addr := (string * string)%type.

(** The three library functions [process_email_headers.py] calls.
    [re_search p s] is the truth value of [re.search(p, s)], or the
    [re.error] that compiling [p] raises. *)
Class PyLib : Type := {
  parseaddr : string → addr;
  formataddr : addr → string;
  re_search : string → string → outcome bool;
}.

(** ** process_email_headers.py *)

Definition TO_HEADER_STRING : string := "To".
Definition FROM_HEADER_STRING : string := "From".
Definition CC_HEADER_STRING : string := "Cc".
Definition DELIVERED_TO_HEADER_STRING : string := "Delivered-To".
Definition REFERENCES_STRING : string := "References".
Definition MESSAGE_ID_STRING : string := "Message-Id".

Module ProcessEmailHeaders.

(** The local variables of [parse_headers]. *)
Record parsed : Type := Parsed {
  header_to : gset addr;
  header_from : gset addr;
  header_cc : gset addr;
  header_self : gset addr;
  header_references : string;
  header_reply_to : string;
}.

Definition parsed_init : parsed :=
  Parsed ∅ ∅ ∅ ∅ "" "".

(** [self.logger.info] lines written so far, and how the call ended. *)
Definition proc (A : Type) : Type := (list string * outcome A)%type.

Definition proc_ret {A : Type} (a : A) : proc A := ([], Returned a).

Definition proc_bind {A B : Type} (m : proc A) (k : A → proc B) : proc B :=
  match m with
  | (l, Returned a) => let '(l', o) := k a in (l ++ l', o)
  | (l, Raised e) => (l, Raised e)
  | (l, Exited n) => (l, Exited n)
  end.

Global Instance proc_mret : MRet proc := @proc_ret.
Global Instance proc_mbind : MBind proc := λ A B k m, proc_bind m k.

Definition lift {A : Type} (o : outcome A) : proc A := ([], o).
Definition logger_info (line : string) : proc unit := ([line], Returned tt).
Definition sys_exit {A : Type} (status : Z) : proc A := ([], Exited status).

Section Actions.
Context `{L : PyLib}.

(** The inner loop of [parse_headers], lines 53-62: one address of a
    [To], [From], [Cc] or [Delivered-To] header. *)
Definition add_address (name : string) (st : parsed) (a : string) : parsed :=
  let addr_tuple := parseaddr a in
  if decide (name = FROM_HEADER_STRING) then
    Parsed (header_to st) ({[addr_tuple]} ∪ header_from st) (header_cc st)
           (header_self st) (header_references st) (header_reply_to st)
  else if decide (name = TO_HEADER_STRING) then
    Parsed ({[addr_tuple]} ∪ header_to st) (header_from st) (header_cc st)
           (header_self st) (header_references st) (header_reply_to st)
  else if decide (name = CC_HEADER_STRING) then
    Parsed (header_to st) (header_from st) ({[addr_tuple]} ∪ header_cc st)
           (header_self st) (header_references st) (header_reply_to st)
  else if decide (name = DELIVERED_TO_HEADER_STRING) then
    Parsed (header_to st) (header_from st) (header_cc st)
           ({[addr_tuple]} ∪ header_self st) (header_references st)
           (header_reply_to st)
  else st.

(** The body of the loop over [headers], lines 50-66. *)
Definition parse_header (st : parsed) (header : string * string) : parsed :=
  let st :=
    if bool_decide (header.1 ∈ [TO_HEADER_STRING; FROM_HEADER_STRING;
                                CC_HEADER_STRING; DELIVERED_TO_HEADER_STRING])
    then foldl (add_address header.1) st (split "," header.2)
    else st in
  let st :=
    if decide (header.1 = REFERENCES_STRING)
    then Parsed (header_to st) (header_from st) (header_cc st) (header_self st)
                (header_references st +:+ header.2) (header_reply_to st)
    else st in
  if decide (header.1 = MESSAGE_ID_STRING)
  then Parsed (header_to st) (header_from st) (header_cc st) (header_self st)
              (header_references st) header.2
  else st.

(** [parse_headers], lines 29-70. *)
Definition parse_headers (headers : list (string * string)) : parsed :=
  let st := foldl parse_header parsed_init headers in
  if nonempty (header_reply_to st)
  then Parsed (header_to st) (header_from st) (header_cc st) (header_self st)
              (header_references st +:+ " " +:+ header_reply_to st)
              (header_reply_to st)
  else st.

(** [for addr_tuple in header_from: if re.search(pat, addr_tuple[1]):
    return True], over the addresses in iteration order. *)
Fixpoint search_addrs (pat : string) (addrs : list addr) : outcome bool :=
  match addrs with
  | [] => Returned false
  | addr_tuple :: rest =>
      found ← re_search pat addr_tuple.2;
      if found : bool then Returned true else search_addrs pat rest
  end.

(** [for p in patterns: for addr_tuple in header_from: ...], with the
    regular expression that line 86 or line 91 builds from [p]. *)
Fixpoint search_patterns (mk : string → string) (patterns : list string)
    (addrs : list addr) : outcome bool :=
  match patterns with
  | [] => Returned false
  | p :: rest =>
      found ← search_addrs (mk p) addrs;
      if found : bool then Returned true else search_patterns mk rest addrs
  end.

Definition domain_pattern (domain : string) : string := "@" +:+ domain +:+ "$".
Definition user_pattern (user : string) : string := "^" +:+ user +:+ "$".

(** [check_allowed], lines 72-93. *)
Definition check_allowed (header_from : gset addr)
    (allowed_domains allowed_users : list string) : outcome bool :=
  found ← (if truthy allowed_domains
           then search_patterns domain_pattern allowed_domains (elements header_from)
           else Returned false);
  if found : bool then Returned true else
  found ← (if truthy allowed_users
           then search_patterns user_pattern allowed_users (elements header_from)
           else Returned false);
  if found : bool then Returned true else Returned false.

(** [for t in s: if email == t[1]: exists = True; break] *)
Definition has_email (email : string) (s : gset addr) : bool :=
  existsb (λ t, bool_decide (email = t.2)) (elements s).

(** The body of the loop of [add_enforced_cc], lines 108-125. *)
Definition enforce_one (header_to header_from : gset addr)
    (header_cc : gset addr) (cc_addr : string) : gset addr :=
  let addr_tuple := parseaddr cc_addr in
  let exists_ := has_email addr_tuple.2 header_to in
  let exists_ :=
    if negb exists_ then has_email addr_tuple.2 header_cc else exists_ in
  let exists_ :=
    if negb exists_ then has_email addr_tuple.2 header_from else exists_ in
  if negb exists_ then {[addr_tuple]} ∪ header_cc else header_cc.

(** [add_enforced_cc], lines 95-126.  The Python code adds to [header_cc]
    in place and returns it. *)
Definition add_enforced_cc (enforce_cc : list string)
    (header_to header_cc header_from : gset addr) : gset addr :=
  foldl (enforce_one header_to header_from) header_cc enforce_cc.

(** Lines 145-148: the loop over a copy of [header_to] for one
    [addr_self]. *)
Definition discard_self (header_to : gset addr) (addr_self : addr) : gset addr :=
  foldl (λ (acc : gset addr) (addr_to : addr),
           if decide (addr_self.2 = addr_to.2) then acc ∖ {[addr_to]} else acc)
        header_to (elements header_to).

(** [process_results], lines 128-162.  [sys.stdout.flush()] has no effect
    on the result and is left out.  Python iterates a set in the order of
    its hash table, which the language leaves open, where the model
    iterates in the order of [elements]: for a set of two or more addresses
    the rendered string of the model and the one of the program hold the
    same addresses, and agree up to their order. *)
Definition process_results (result : gmap string string)
    (header_from header_to header_cc header_self : gset addr)
    (header_references header_in_reply_to : string)
  : outcome (gmap string string) :=
  let header_to := foldl discard_self header_to (elements header_self) in
  let header_to := header_to ∪ header_from in
  let to_addrs := formataddr <$> elements header_to in
  let result := <["to" := join ", " to_addrs]> result in
  let cc_addrs := formataddr <$> elements header_cc in
  let result := <["cc" := join ", " cc_addrs]> result in
  addr_self ← set_pop header_self;
  let result := <["from" := formataddr addr_self]> result in
  let result := <["references" := header_references]> result in
  let result := <["in_reply_to" := header_in_reply_to]> result in
  Returned result.

(** The dictionary [run] starts from, line 165. *)
Definition result_init : gmap string string :=
  <["to" := ""]> (<["from" := ""]> (<["cc" := ""]> ∅)).

(** [run], lines 164-179. *)
Definition run (headers : list (string * string)) (enforce_cc : list string)
    (allowed_domains allowed_users : list string) : proc (gmap string string) :=
  let result := result_init in
  let p := parse_headers headers in
  _ ← (if truthy allowed_domains || truthy allowed_users then
         allowed ← lift (check_allowed (header_from p) allowed_domains allowed_users);
         if negb allowed then
           rejected ← lift (set_pop (header_from p));
           _ ← logger_info ("User not permitted: " +:+ formataddr rejected);
           sys_exit 1
         else mret tt
       else mret tt);
  let header_cc :=
    if truthy enforce_cc
    then add_enforced_cc enforce_cc (header_to p) (header_cc p) (header_from p)
    else header_cc p in
  lift (process_results result (header_from p) (header_to p) header_cc
          (header_self p) (header_references p) (header_reply_to p)).

End Actions.

End ProcessEmailHeaders.

(** ** A model of the library *)

(** The models below follow CPython 2.7, the interpreter of the StackStorm
    runner the pack was written for. *)
Module PyModel.

Local Open Scope char_scope.

(** *** [email.utils.formataddr]

    A name that holds one of the characters of [specialsre]
    (brackets, backslash, parentheses, angle brackets, at sign, comma,
    colon, semicolon, double quote, full stop) is put between double
    quotes, and [escapesre] puts a backslash before every backslash and
    double quote of the name:

    [[
    def formataddr(pair):
        name, address = pair
        if name:
            quotes = ''
            if specialsre.search(name):
                quotes = DQUOTE
            name = escapesre.sub(BACKSLASH + MATCHED, name)
            return '%s%s%s <%s>' % (quotes, name, quotes, address)
        return address
    ]] *)

Definition backslash : ascii := "\".

Definition is_special (c : ascii) : bool :=
  bool_decide (c ∈ ["]"; "["; backslash; "("; ")"; "<"; ">"; "@"; ","; ":";
                    ";"; dquote; "."]).

Fixpoint has_special (s : string) : bool :=
  match s with
  | EmptyString => false
  | String c s' => is_special c || has_special s'
  end.

Fixpoint escape (s : string) : string :=
  match s with
  | EmptyString => EmptyString
  | String c s' =>
      if bool_decide (c = backslash ∨ c = dquote)
      then String backslash (String c (escape s'))
      else String c (escape s')
  end.

Definition formataddr (pair : addr) : string :=
  let '(name, address) := pair in
  if nonempty name then
    let quotes := if has_special name then dq else ""%string in
    (quotes +:+ escape name +:+ quotes +:+ " <" +:+ address +:+ ">")%string
  else address.

(** *** [email.utils.parseaddr]

    The library parses the whole RFC 2822 address grammar (comments, quoted
    strings, groups, routes).  The model covers the two shapes the
    specification names, [Name <local@domain>] and the bare
    [local@domain]: white space around the text is dropped, the words
    before [<] are joined by single spaces into the display name, and the
    address is the text between [<] and [>].  It agrees with the library
    when the words of the name hold no parenthesis, angle bracket, square
    bracket, at sign, comma, colon, semicolon, double quote or backslash,
    and the address holds no white space and none of these characters but
    the at sign. *)

Definition is_lws (c : ascii) : bool :=
  bool_decide (c ∈ [" "; "009"; "010"; "013"]).

Fixpoint lstrip (s : string) : string :=
  match s with
  | EmptyString => EmptyString
  | String c s' => if is_lws c then lstrip s' else s
  end.

Definition strip (s : string) : string :=
  String.rev (lstrip (String.rev (lstrip s))).

(** The words of [s] (maximal runs without white space); [cur] is the
    current word, reversed. *)
Fixpoint words_go (cur : string) (s : string) : list string :=
  match s with
  | EmptyString => if nonempty cur then [String.rev cur] else []
  | String c s' =>
      if is_lws c
      then (if nonempty cur then [String.rev cur] else []) ++ words_go "" s'
      else words_go (String c cur) s'
  end.

(** [s] cut at the first [c]: the text before it and the text after it. *)
Fixpoint cut (c : ascii) (s : string) : option (string * string) :=
  match s with
  | EmptyString => None
  | String x s' =>
      if decide (x = c) then Some (EmptyString, s')
      else match cut c s' with
           | Some (before, after) => Some (String x before, after)
           | None => None
           end
  end.

Definition parseaddr (a : string) : addr :=
  match cut "<" a with
  | Some (phrase, rest) =>
      let inside := match cut ">" rest with
                    | Some (inside, _) => inside
                    | None => rest
                    end in
      (join " " (words_go "" phrase), strip inside)
  | None => (""%string, strip a)
  end.

(** *** [re.search]

    The model covers the patterns made of ordinary characters, [.], the
    anchors [^] and [$], and [*] after a character or [.].  On these it
    answers as [re.search] does, [re.error] included: [*] with nothing
    before it, or after an anchor, is [nothing to repeat], and [*] after [*]
    is [multiple repeat].  A pattern that holds another metacharacter
    (backslash, plus, question mark, brace, square bracket, parenthesis or
    vertical bar) is outside the model. *)

Inductive atom : Type :=
| AChar (c : ascii)      (* the character itself *)
| AAny                   (* [.]: any character but a newline *)
| AStart                 (* [^]: at the start of the string *)
| AEnd.                  (* [$]: at the end, or before a final newline *)

(** An atom, and whether [*] follows it. *)
Record item : Type := Item { item_atom : atom; item_star : bool }.

Definition is_anchor (a : atom) : bool :=
  match a with AStart | AEnd => true | _ => false end.

Definition is_unmodelled (c : ascii) : bool :=
  bool_decide (c ∈ [backslash; "+"; "?"; "{"; "}"; "["; "]"; "("; ")"; "|"]).

(** The pattern read from the left; [acc] holds the items read so far, the
    last one first. *)
Fixpoint compile_go (acc : list item) (p : string) : outcome (list item) :=
  match p with
  | EmptyString => Returned (rev acc)
  | String c p' =>
      if decide (c = "*") then
        match acc with
        | [] => Raised (ReError "nothing to repeat")
        | Item a starred :: acc' =>
            if starred then Raised (ReError "multiple repeat")
            else if is_anchor a then Raised (ReError "nothing to repeat")
            else compile_go (Item a true :: acc') p'
        end
      else if is_unmodelled c then Raised (NotModelled (String c EmptyString))
      else
        let a := if decide (c = ".") then AAny
                 else if decide (c = "^") then AStart
                 else if decide (c = "$") then AEnd
                 else AChar c in
        compile_go (Item a false :: acc) p'
  end.

Definition compile (p : string) : outcome (list item) := compile_go [] p.

Definition newline : ascii := "010".

Definition atom_accepts (a : atom) (c : ascii) : bool :=
  match a with
  | AChar x => bool_decide (x = c)
  | AAny => negb (bool_decide (c = newline))
  | AStart | AEnd => false
  end.

Definition at_end (s : string) : bool :=
  bool_decide (s = EmptyString ∨ s = String newline EmptyString).

(** Does the pattern match a prefix of [s]?  [at_start] tells whether [s]
    is the whole subject string. *)
Fixpoint match_items (items : list item) (at_start : bool) (s : string) : bool :=
  match items with
  | [] => true
  | Item a false :: rest =>
      match a with
      | AStart => at_start && match_items rest at_start s
      | AEnd => at_end s && match_items rest at_start s
      | _ =>
          match s with
          | EmptyString => false
          | String c s' => atom_accepts a c && match_items rest false s'
          end
      end
  | Item a true :: rest =>
      (fix star (at_start : bool) (s : string) : bool :=
         match_items rest at_start s ||
         match s with
         | EmptyString => false
         | String c s' => atom_accepts a c && star false s'
         end) at_start s
  end.

(** Does the pattern match somewhere in [s]? *)
Fixpoint search_from (items : list item) (at_start : bool) (s : string) : bool :=
  match_items items at_start s ||
  match s with
  | EmptyString => false
  | String _ s' => search_from items false s'
  end.

Definition re_search (p s : string) : outcome bool :=
  items ← compile p;
  Returned (search_from items true s).

Global Instance lib : PyLib := Build_PyLib parseaddr formataddr re_search.

End PyModel.

(** ** send_html_email.py *)

Module SendEmail.

(** One entry of the [imap_mailboxes] mapping of [config.yaml].  [port] is
    the number that [int(account_data['port'])] yields. *)
Record account_data : Type := AccountData {
  server : string;
  port : Z;
  username : string;
  password : string;
}.

(** [self.config]: what [self.config.get('imap_mailboxes', None)] returns,
    [None] when the key is missing. *)
Record config : Type := Config {
  imap_mailboxes : option (gmap string account_data);
}.

(** Python objects are shared by reference: [msg_alt] is attached to
    [msg_root] before its own parts are attached to it.  The MIME objects
    therefore live in a store, and a container holds the places of its
    parts.  [headers] are the headers that the action sets; those that
    the constructors set themselves ([Content-Type], [MIME-Version]) are
    left out. *)
Abbreviation loc := nat.

Inductive mime_obj : Type :=
| MIMEMultipart (subtype : string) (headers : list (string * string))
    (preamble : option string) (parts : list loc)
| MIMEText (text : string) (subtype : string)
| MIMEImage (imagedata : string) (subtype : string)
    (headers : list (string * string)).

(** A message as [as_string] walks it: every container with its parts in
    place.  The serialised text (boundaries, transfer encodings) is the
    library's; the model hands this tree to [sendmail]. *)
Inductive mime : Type :=
| Multipart (subtype : string) (headers : list (string * string))
    (preamble : option string) (parts : list mime)
| Text (text : string) (subtype : string)
| Image (imagedata : string) (subtype : string)
    (headers : list (string * string)).

(** What the action does to the outside world. *)
Inductive io_event : Type :=
| FileRead (path : string)
| SmtpConnect (host : string) (port : Z) (timeout : Z)
| SmtpEhlo
| SmtpStarttls
| SmtpLogin (user pass : string)
| SmtpSendmail (from_addr : string) (to_addrs : list string) (msg : mime)
| SmtpQuit.

(** The outside world: the files, the guess of [imghdr.what] over image
    bytes ([None]: [MIMEImage] raises [TypeError]), and the SMTP calls that
    fail. *)
Record world : Type := World {
  file_bytes : string → option string;
  imghdr_what : string → option string;
  smtp_error : io_event → option exn;
}.

(** The store of MIME objects and the trace of events. *)
Record state : Type := State {
  heap : list mime_obj;
  trace : list io_event;
}.

Definition state_init : state := State [] [].

Definition M (A : Type) : Type := state → state * outcome A.

Definition M_ret {A : Type} (a : A) : M A := λ st, (st, Returned a).

Definition M_bind {A B : Type} (m : M A) (k : A → M B) : M B :=
  λ st, match m st with
        | (st', Returned a) => k a st'
        | (st', Raised e) => (st', Raised e)
        | (st', Exited n) => (st', Exited n)
        end.

Global Instance M_mret : MRet M := @M_ret.
Global Instance M_mbind : MBind M := λ A B k m, M_bind m k.

Definition raise {A : Type} (e : exn) : M A := λ st, (st, Raised e).

(** A new object in the store. *)
Definition new (o : mime_obj) : M loc :=
  λ st, (State (heap st ++ [o]) (trace st), Returned (length (heap st))).

Definition update (l : loc) (f : mime_obj → mime_obj) : M unit :=
  λ st, (State (alter f l (heap st)) (trace st), Returned tt).

(** [msg[name] = value] and [msg.add_header(name, value)] *)
Definition with_header (name value : string) (o : mime_obj) : mime_obj :=
  match o with
  | MIMEMultipart s hs pre ps => MIMEMultipart s (hs ++ [(name, value)]) pre ps
  | MIMEImage d s hs => MIMEImage d s (hs ++ [(name, value)])
  | MIMEText t s => MIMEText t s
  end.

Definition add_header (l : loc) (name value : string) : M unit :=
  update l (with_header name value).

(** [msg.preamble = text] *)
Definition with_preamble (text : string) (o : mime_obj) : mime_obj :=
  match o with
  | MIMEMultipart s hs _ ps => MIMEMultipart s hs (Some text) ps
  | _ => o
  end.

Definition set_preamble (l : loc) (text : string) : M unit :=
  update l (with_preamble text).

(** [msg.attach(part)] *)
Definition with_part (part : loc) (o : mime_obj) : mime_obj :=
  match o with
  | MIMEMultipart s hs pre ps => MIMEMultipart s hs pre (ps ++ [part])
  | _ => o
  end.

Definition attach (l : loc) (part : loc) : M unit :=
  update l (with_part part).

(** An event of the outside world, which may fail. *)
Definition io (w : world) (ev : io_event) : M unit :=
  λ st, let st' := State (heap st) (trace st ++ [ev]) in
        match smtp_error w ev with
        | Some e => (st', Raised e)
        | None => (st', Returned tt)
        end.

(** [open(path, 'rb')], [fp.read()] and, after the part is built,
    [fp.close()]. *)
Definition read_file (w : world) (path : string) : M string :=
  λ st, let st' := State (heap st) (trace st ++ [FileRead path]) in
        match file_bytes w path with
        | Some bytes => (st', Returned bytes)
        | None => (st', Raised (IOError path))
        end.

(** The message below [l], with every part in place.  [fuel] bounds the
    number of objects on a path from [l] down to a part; in a store
    without cycles that is at most the number of its objects. *)
Fixpoint resolve (fuel : nat) (h : list mime_obj) (l : loc) : option mime :=
  match fuel with
  | O => None
  | S n =>
      match h !! l with
      | None => None
      | Some (MIMEText t s) => Some (Text t s)
      | Some (MIMEImage d s hs) => Some (Image d s hs)
      | Some (MIMEMultipart s hs pre ps) =>
          match mapM (resolve n h) ps with
          | Some ts => Some (Multipart s hs pre ts)
          | None => None
          end
      end
  end.

(** [msg.as_string()] *)
Definition as_string (l : loc) : M mime :=
  λ st, match resolve (S (length (heap st))) (heap st) l with
        | Some m => (st, Returned m)
        | None => (st, Raised (NotModelled "as_string"))
        end.

(** [os.path.basename(path)] *)
Definition basename (path : string) : string := List.last (split "/" path) "".

Definition missing_mailboxes : string :=
  dq +:+ "imap_mailboxes" +:+ dq +:+ " config value is required to send email.".

Definition unknown_account (account : string)
    (accounts : gmap string account_data) : string :=
  "The account " +:+ dq +:+ account +:+ dq +:+
  " does not seem to appear in the configuration. Available accounts are: " +:+
  join "," (map_to_list accounts).*1.

(** Lines 43-55: the account of the configuration. *)
Definition lookup_account (cfg : config) (account : string) : M account_data :=
  match imap_mailboxes cfg with
  | None => raise (ValueError missing_mailboxes)
  | Some accounts =>
      if negb (truthy (map_to_list accounts))
      then raise (ValueError "at least one account is required to send email.")
      else match accounts !! account with
           | Some account_data => mret account_data
           | None => raise (KeyError (unknown_account account accounts))
           end
  end.

(** The body of the loop over [message_images], lines 77-87. *)
Definition attach_image (w : world) (msg_root : loc) (image : string) : M unit :=
  let name := basename image in
  imgdata ← read_file w image;
  img ← match imghdr_what w imgdata with
        | Some subtype => new (MIMEImage imgdata subtype [])
        | None =>
            let imgtype := List.last (split "." name) "" in
            new (MIMEImage imgdata imgtype [])
        end;
  _ ← add_header img "Content-ID" ("<" +:+ name +:+ ">");
  attach msg_root img.

Fixpoint for_each {A : Type} (body : A → M unit) (l : list A) : M unit :=
  match l with
  | [] => mret tt
  | x :: rest => _ ← body x; for_each body rest
  end.

(** Lines 57-87: the message and the envelope recipients.  The text
    arguments may be [None] or empty, which are both false; a string stands
    for both. *)
Definition build_message (w : world)
    (email_from email_to email_cc email_references email_in_reply_to subject : string)
    (message_text message_html : string) (message_images : list string)
  : M (loc * list string) :=
  msg_root ← new (MIMEMultipart "related" [] None []);
  _ ← add_header msg_root "Subject" subject;
  _ ← add_header msg_root "From" email_from;
  _ ← add_header msg_root "To" email_to;
  _ ← add_header msg_root "Cc" email_cc;
  _ ← add_header msg_root "References" email_references;
  _ ← add_header msg_root "In-Reply-To" email_in_reply_to;
  let toaddrs :=
    if nonempty email_cc
    then split ", " email_to ++ split ", " email_cc
    else split ", " email_to in
  _ ← set_preamble msg_root "This is a multi-part message in MIME format.";
  msg_alt ← new (MIMEMultipart "alternative" [] None []);
  _ ← attach msg_root msg_alt;
  _ ← (if nonempty message_text
       then part ← new (MIMEText message_text "plain"); attach msg_alt part
       else mret tt);
  _ ← (if nonempty message_html
       then part ← new (MIMEText message_html "html"); attach msg_alt part
       else mret tt);
  _ ← (if truthy message_images
       then for_each (attach_image w msg_root) message_images
       else mret tt);
  mret (msg_root, toaddrs).

(** Lines 89-94: the SMTP session. *)
Definition send (w : world) (account_data : account_data)
    (email_from : string) (toaddrs : list string) (msg_root : loc) : M unit :=
  _ ← io w (SmtpConnect (server account_data) (port account_data) 20);
  _ ← io w SmtpEhlo;
  _ ← io w SmtpStarttls;
  _ ← io w (SmtpLogin (username account_data) (password account_data));
  text ← as_string msg_root;
  _ ← io w (SmtpSendmail email_from toaddrs text);
  io w SmtpQuit.

(** [run], lines 23-95. *)
Definition run (w : world) (cfg : config)
    (email_from email_to email_cc email_references email_in_reply_to subject
     account message_text message_html : string)
    (message_images : list string) : M unit :=
  account_data ← lookup_account cfg account;
  '(msg_root, toaddrs) ← build_message w email_from email_to email_cc
      email_references email_in_reply_to subject message_text message_html
      message_images;
  send w account_data email_from toaddrs msg_root.

End SendEmail.

(** ** What the claims speak of *)

(** The values of the [References] headers, in the order of the list. *)
Definition references_values (headers : list (string * string)) : list string :=
  (filter (λ h, h.1 = REFERENCES_STRING) headers).*2.

(** The values of the [Message-Id] headers, in the order of the list. *)
Definition message_ids (headers : list (string * string)) : list string :=
  (filter (λ h, h.1 = MESSAGE_ID_STRING) headers).*2.

(** The references string as the specification words it: the [References]
    values joined by spaces and, when a [Message-Id] header was met, a space
    and the latest of them. *)
Definition space_joined_references (headers : list (string * string)) : string :=
  let refs := join " " (references_values headers) in
  match message_ids headers with
  | [] => refs
  | ids => refs +:+ " " +:+ List.last ids ""
  end.

(** [re.search(pat, a[1])] finds a match. *)
Definition matches `{L : PyLib} (pat : string) (a : addr) : Prop :=
  re_search pat a.2 = Returned true.

(** [re.search(pat, a[1])] returns: [pat] is a well-formed regular
    expression. *)
Definition compiles `{L : PyLib} (pat : string) (a : addr) : Prop :=
  ∃ b, re_search pat a.2 = Returned b.

(** Some address of [s] has the email address [email]. *)
Definition known_email (email : string) (s : gset addr) : Prop :=
  set_Exists (λ t, t.2 = email) s.

Global Instance known_email_dec email s : Decision (known_email email s).
Proof. unfold known_email. apply _. Defined.

(** The addresses of [header_to] whose email address is the one of no
    address of [header_self]. *)
Definition without_self (header_to header_self : gset addr) : gset addr :=
  filter (λ t, ¬ known_email t.2 header_self) header_to.

(** The parts that the claims give to the [alternative] container: a
    plain-text part when [message_text] is not empty, then an HTML part when
    [message_html] is not empty. *)
Definition alternative_parts (message_text message_html : string)
  : list SendEmail.mime :=
  (if nonempty message_text then [SendEmail.Text message_text "plain"] else []) ++
  (if nonempty message_html then [SendEmail.Text message_html "html"] else []).

(** ** The inputs of the scenarios *)

Module Scenarios.
Import ProcessEmailHeaders.

(** The header list of the end-to-end scenario. *)
Definition alice_to_bob : list (string * string) :=
  [("From", "Alice <alice@a.com>"); ("To", "Bob <bob@b.com>");
   ("Delivered-To", "Bob <bob@b.com>")].

(** The header list of the self-deduplication scenario. *)
Definition a_to_b : list (string * string) :=
  [("From", "A <a@x.com>"); ("To", "B <b@y.com>");
   ("Delivered-To", "B <b@y.com>")].

(** A message with no [From] header. *)
Definition no_sender : list (string * string) :=
  [("To", "Bob <bob@b.com>"); ("Delivered-To", "Bob <bob@b.com>")].

(** A reply in a thread: two [References] headers and a [Message-Id]. *)
Definition reply_in_thread : list (string * string) :=
  [("From", "Alice <alice@a.com>"); ("To", "Bob <bob@b.com>, Carol <carol@c.com>");
   ("Cc", "dave@d.com"); ("Delivered-To", "bob@b.com");
   ("References", "<1@a.com>"); ("References", "<2@a.com>");
   ("Message-Id", "<3@a.com>"); ("X-Mailer", "mutt")].

(** The value of a field of the mapping that a call returned. *)
Definition field (name : string) (r : proc (gmap string string)) : option string :=
  match r.2 with
  | Returned m => m !! name
  | _ => None
  end.

(** A world whose one image file is read and recognised, and whose SMTP
    server accepts every call. *)
Definition friendly_world : SendEmail.world :=
  SendEmail.World
    (λ path, if decide (path = "/opt/img/logo.png") then Some "PNG" else None)
    (λ _, Some "png")
    (λ _, None).

(** A configuration with one account. *)
Definition one_account : SendEmail.config :=
  SendEmail.Config
    (Some {["alerts" := SendEmail.AccountData "smtp.example.org" 587
                          "alerts@example.org" "secret"]}).

(** The account of [one_account]. *)
Definition alerts_account : SendEmail.account_data :=
  SendEmail.AccountData "smtp.example.org" 587 "alerts@example.org" "secret".

(** A world like [friendly_world] whose SMTP server refuses the login. *)
Definition refusing_world : SendEmail.world :=
  SendEmail.World
    (SendEmail.file_bytes friendly_world)
    (SendEmail.imghdr_what friendly_world)
    (λ ev, match ev with
           | SendEmail.SmtpLogin _ _ => Some (SMTPException "login")
           | _ => None
           end).

End Scenarios.

(** ** What the proofs about send_html_email.py speak of *)

Module Store.
Import SendEmail.

(** The store after lines 57-74, before the images are read: the root
    with the alternative container as its only part, the container, and
    the text parts. *)
Definition store_before_images
    (email_from email_to email_cc email_references email_in_reply_to subject
     message_text message_html : string) : list mime_obj :=
  let texts :=
    (if nonempty message_text then [MIMEText message_text "plain"] else []) ++
    (if nonempty message_html then [MIMEText message_html "html"] else []) in
  [MIMEMultipart "related"
     [("Subject", subject); ("From", email_from); ("To", email_to);
      ("Cc", email_cc); ("References", email_references);
      ("In-Reply-To", email_in_reply_to)]
     (Some "This is a multi-part message in MIME format.") [1];
   MIMEMultipart "alternative" [] None (seq 2 (length texts))] ++ texts.

(** The place [l] of the store holds the text part [t]. *)
Definition text_at (h : list mime_obj) (l : loc) (t : mime) : Prop :=
  ∃ text sub, h !! l = Some (MIMEText text sub) ∧ t = Text text sub.

(** The place [l] of the store holds an image part. *)
Definition image_at (h : list mime_obj) (l : loc) : Prop :=
  ∃ d s hs, h !! l = Some (MIMEImage d s hs).

(** The shape of the store from line 74 on: the root at place 0 with the
    alternative container as its first part and images after it, the
    container at place 1 with the text parts [texts]. *)
Definition built (texts : list mime) (h : list mime_obj) : Prop :=
  ∃ hs pre imgs alt_locs,
    h !! 0 = Some (MIMEMultipart "related" hs pre (1 :: imgs)) ∧
    h !! 1 = Some (MIMEMultipart "alternative" [] None alt_locs) ∧
    Forall2 (text_at h) alt_locs texts ∧
    Forall (image_at h) imgs.

(** A trace that holds file reads only. *)
Definition only_reads (tr : list io_event) : Prop :=
  Forall (λ ev, ∃ path, ev = FileRead path) tr.

End Store.

(** ** What the further properties speak of *)

(** The addresses of the headers named [name]: every value cut at its
    commas, every piece parsed. *)
Definition header_addresses `{L : PyLib} (name : string)
    (headers : list (string * string)) : gset addr :=
  list_to_set
    (parseaddr <$> (filter (λ h, h.1 = name) headers ≫= λ h, split "," h.2)).

(** The header names that [parse_headers] looks at. *)
Definition recognised (h : string * string) : Prop :=
  h.1 ∈ [TO_HEADER_STRING; FROM_HEADER_STRING; CC_HEADER_STRING;
         DELIVERED_TO_HEADER_STRING; REFERENCES_STRING; MESSAGE_ID_STRING].

(** The set of a parsed state that the headers named [name] feed. *)
Definition addresses_of (name : string) (st : ProcessEmailHeaders.parsed)
  : gset addr :=
  if decide (name = FROM_HEADER_STRING) then ProcessEmailHeaders.header_from st
  else if decide (name = TO_HEADER_STRING) then ProcessEmailHeaders.header_to st
  else if decide (name = CC_HEADER_STRING) then ProcessEmailHeaders.header_cc st
  else if decide (name = DELIVERED_TO_HEADER_STRING)
  then ProcessEmailHeaders.header_self st
  else ∅.

(** The keys of the mapping that [run] returns. *)
Definition result_fields : gset string :=
  list_to_set ["to"; "from"; "cc"; "references"; "in_reply_to"].

(** ** What the further properties of send_html_email.py speak of *)

Module Sent.
Import SendEmail Store.

(** The image part that lines 77-86 build from the file [image] and its
    bytes: the subtype that [imghdr] guesses or else the text after the last
    full stop of the file name, and the file name as [Content-ID]. *)
Definition image_part (w : world) (image bytes : string) : mime :=
  let name := basename image in
  Image bytes
    (match imghdr_what w bytes with
     | Some subtype => subtype
     | None => List.last (split "." name) ""
     end)
    [("Content-ID", "<" +:+ name +:+ ">")].

(** The envelope recipients of lines 64-67. *)
Definition envelope (email_to email_cc : string) : list string :=
  if nonempty email_cc
  then split ", " email_to ++ split ", " email_cc
  else split ", " email_to.

(** The headers that lines 58-63 set on the root. *)
Definition root_headers
    (email_from email_to email_cc email_references email_in_reply_to
     subject : string) : list (string * string) :=
  [("Subject", subject); ("From", email_from); ("To", email_to);
   ("Cc", email_cc); ("References", email_references);
   ("In-Reply-To", email_in_reply_to)].

(** The whole message, for images whose bytes are [bytes]. *)
Definition message (w : world)
    (email_from email_to email_cc email_references email_in_reply_to subject
     message_text message_html : string) (images bytes : list string) : mime :=
  Multipart "related"
    (root_headers email_from email_to email_cc email_references
       email_in_reply_to subject)
    (Some "This is a multi-part message in MIME format.")
    (Multipart "alternative" [] None
       (alternative_parts message_text message_html)
     :: zip_with (image_part w) images bytes).

(** The SMTP calls of lines 89-94, in their order. *)
Definition session (d : account_data) (email_from : string)
    (toaddrs : list string) (m : mime) : list io_event :=
  [SmtpConnect (server d) (port d) 20; SmtpEhlo; SmtpStarttls;
   SmtpLogin (username d) (password d);
   SmtpSendmail email_from toaddrs m; SmtpQuit].

(** The place [l] of the store holds the image part [t]. *)
Definition image_tree_at (h : list mime_obj) (l : loc) (t : mime) : Prop :=
  ∃ d s hs, h !! l = Some (MIMEImage d s hs) ∧ t = Image d s hs.

(** The store from line 74 on, with the root headers, the preamble, the
    text parts and the image parts it holds. *)
Definition built_exact (hs : list (string * string)) (pre : option string)
    (texts trees : list mime) (h : list mime_obj) : Prop :=
  ∃ alt_locs img_locs,
    h !! 0 = Some (MIMEMultipart "related" hs pre (1 :: img_locs)) ∧
    h !! 1 = Some (MIMEMultipart "alternative" [] None alt_locs) ∧
    Forall2 (text_at h) alt_locs texts ∧
    Forall2 (image_tree_at h) img_locs trees.

(** Every file of [images] can be read, and [bytes] are their contents. *)
Definition readable (w : world) (images bytes : list string) : Prop :=
  Forall2 (λ image b, file_bytes w image = Some b) images bytes.

End Sent.

(** ** Proofs: strings *)

Lemma append_cons (c : ascii) (s t : string) :
  String c s +:+ t = String c (s +:+ t).
Proof. reflexivity. Qed.

Lemma append_nil_l (s : string) : "" +:+ s = s.
Proof. reflexivity. Qed.

Lemma append_nil_r (s : string) : s +:+ "" = s.
Proof. induction s as [|c s IH]; [done|]. by rewrite append_cons, IH. Qed.

Lemma append_assoc (s1 s2 s3 : string) : (s1 +:+ s2) +:+ s3 = s1 +:+ s2 +:+ s3.
Proof. induction s1 as [|c s1 IH]; [done|]. by rewrite !append_cons, IH. Qed.

(** ** Proofs: parse_headers *)

Section ParseHeaders.
Context `{L : PyLib}.
Import ProcessEmailHeaders.

Lemma add_address_references name st a :
  header_references (add_address name st a) = header_references st.
Proof. unfold add_address. repeat case_decide; reflexivity. Qed.

Lemma add_address_reply_to name st a :
  header_reply_to (add_address name st a) = header_reply_to st.
Proof. unfold add_address. repeat case_decide; reflexivity. Qed.

Lemma add_addresses_strings name l : ∀ st,
  header_references (foldl (add_address name) st l) = header_references st ∧
  header_reply_to (foldl (add_address name) st l) = header_reply_to st.
Proof.
  induction l as [|a l IH]; intros st; simpl; [done|].
  destruct (IH (add_address name st a)) as [-> ->].
  by rewrite add_address_references, add_address_reply_to.
Qed.

Lemma parse_header_references st h :
  header_references (parse_header st h) =
    if decide (h.1 = REFERENCES_STRING)
    then header_references st +:+ h.2 else header_references st.
Proof.
  unfold parse_header.
  destruct (add_addresses_strings h.1 (split "," h.2) st) as [Hr _].
  repeat case_bool_decide; repeat case_decide; simpl; congruence.
Qed.

Lemma parse_header_reply_to st h :
  header_reply_to (parse_header st h) =
    if decide (h.1 = MESSAGE_ID_STRING) then h.2 else header_reply_to st.
Proof.
  unfold parse_header.
  destruct (add_addresses_strings h.1 (split "," h.2) st) as [_ Hr].
  repeat case_bool_decide; repeat case_decide; simpl; congruence.
Qed.

Lemma concat_nosep_cons x l :
  String.concat "" (x :: l) = x +:+ String.concat "" l.
Proof. destruct l; simpl; [by rewrite append_nil_r|done]. Qed.

Lemma last_cons_default {A : Type} (l : list A) : ∀ x d,
  List.last (x :: l) d = List.last l x.
Proof.
  induction l as [|y l IH]; intros x d; [done|].
  change (List.last (y :: l) d = List.last (y :: l) x). by rewrite !IH.
Qed.

(** The loop over the headers appends every [References] value and keeps
    the latest [Message-Id] value. *)
Lemma parse_loop_strings headers : ∀ st,
  header_references (foldl parse_header st headers) =
    header_references st +:+ String.concat "" (references_values headers) ∧
  header_reply_to (foldl parse_header st headers) =
    List.last (message_ids headers) (header_reply_to st).
Proof.
  unfold references_values, message_ids.
  induction headers as [|h hs IH]; intros st.
  - simpl. by rewrite append_nil_r.
  - change (foldl parse_header st (h :: hs))
      with (foldl parse_header (parse_header st h) hs).
    destruct (IH (parse_header st h)) as [-> ->].
    rewrite parse_header_references, parse_header_reply_to.
    rewrite !filter_cons. split.
    + case_decide; [|done].
      by rewrite fmap_cons, concat_nosep_cons, append_assoc.
    + case_decide; [|done]. by rewrite fmap_cons, last_cons_default.
Qed.

(** C2, as amended: [parse_headers] appends the values of the [References]
    headers to one another in the order of the list, with nothing between
    them; [in_reply_to] is the value of the last [Message-Id] header (the
    empty string when there is none); and when that value is not empty the
    returned references string is the concatenation, a space and that
    value, otherwise the concatenation alone. *)
Theorem parse_headers_references headers :
  let in_reply_to := List.last (message_ids headers) "" in
  let refs := String.concat "" (references_values headers) in
  header_reply_to (parse_headers headers) = in_reply_to ∧
  header_references (parse_headers headers) =
    if nonempty in_reply_to then refs +:+ " " +:+ in_reply_to else refs.
Proof.
  intros in_reply_to refs. unfold parse_headers.
  destruct (parse_loop_strings headers parsed_init) as [Hr Hi].
  simpl in Hr, Hi. fold refs in Hr. fold in_reply_to in Hi.
  rewrite Hi. destruct (nonempty in_reply_to); simpl; by rewrite ?Hr, ?Hi.
Qed.

End ParseHeaders.

(** ** Proofs: check_allowed *)

Section CheckAllowed.
Context `{L : PyLib}.
Import ProcessEmailHeaders.

Lemma search_addrs_spec pat addrs :
  (∀ a, a ∈ addrs → compiles pat a) →
  ∃ b, search_addrs pat addrs = Returned b ∧
       (b = true ↔ ∃ a, a ∈ addrs ∧ matches pat a).
Proof.
  induction addrs as [|a addrs IH]; intros Hok.
  - exists false. split; [done|]. split; [done|].
    intros (a & Ha & _). by apply elem_of_nil in Ha.
  - destruct (Hok a) as [b Hb]; [left|].
    destruct IH as (b' & Hb' & Hiff).
    { intros a' Ha'. apply Hok. by right. }
    simpl. rewrite Hb. simpl. destruct b.
    + exists true. split; [done|]. split; [|done].
      intros _. exists a. split; [left|done].
    + exists b'. split; [done|]. rewrite Hiff. split.
      * intros (a' & Ha' & Hm). exists a'. split; [by right|done].
      * intros (a' & Ha' & Hm). apply elem_of_cons in Ha' as [->|Ha'].
        -- unfold matches in Hm. congruence.
        -- by exists a'.
Qed.

Lemma search_patterns_spec mk patterns addrs :
  (∀ p a, p ∈ patterns → a ∈ addrs → compiles (mk p) a) →
  ∃ b, search_patterns mk patterns addrs = Returned b ∧
       (b = true ↔ ∃ p a, p ∈ patterns ∧ a ∈ addrs ∧ matches (mk p) a).
Proof.
  induction patterns as [|p patterns IH]; intros Hok.
  - exists false. split; [done|]. split; [done|].
    intros (p & a & Hp & _). by apply elem_of_nil in Hp.
  - destruct (search_addrs_spec (mk p) addrs) as (b & Hb & Hiff).
    { intros a Ha. apply Hok; [left|done]. }
    destruct IH as (b' & Hb' & Hiff').
    { intros p' a Hp' Ha. apply Hok; [by right|done]. }
    simpl. rewrite Hb. simpl. destruct b.
    + exists true. split; [done|]. split; [|done].
      intros _. destruct Hiff as [Hiff _].
      destruct Hiff as (a & Ha & Hm); [done|]. exists p, a.
      split; [left|done].
    + exists b'. split; [done|]. rewrite Hiff'. split.
      * intros (p' & a & Hp' & Ha & Hm). exists p', a. split; [by right|done].
      * intros (p' & a & Hp' & Ha & Hm).
        apply elem_of_cons in Hp' as [->|Hp'].
        -- destruct Hiff as [_ Hiff]. discriminate Hiff. by exists a.
        -- by exists p', a.
Qed.

Lemma search_patterns_guard mk patterns addrs :
  (if truthy patterns then search_patterns mk patterns addrs else Returned false)
  = search_patterns mk patterns addrs.
Proof. by destruct patterns. Qed.

(** With patterns that compile, [check_allowed] returns, and it returns
    true exactly when an address matches a domain or a user pattern. *)
Lemma check_allowed_spec (header_from : gset addr) allowed_domains allowed_users :
  (∀ d a, d ∈ allowed_domains → a ∈ header_from → compiles (domain_pattern d) a) →
  (∀ u a, u ∈ allowed_users → a ∈ header_from → compiles (user_pattern u) a) →
  ∃ b, check_allowed header_from allowed_domains allowed_users = Returned b ∧
       (b = true ↔
          (∃ d a, d ∈ allowed_domains ∧ a ∈ header_from ∧
                  matches (domain_pattern d) a) ∨
          (∃ u a, u ∈ allowed_users ∧ a ∈ header_from ∧
                  matches (user_pattern u) a)).
Proof.
  intros Hd Hu. unfold check_allowed. rewrite !search_patterns_guard.
  destruct (search_patterns_spec domain_pattern allowed_domains
              (elements header_from)) as (b1 & -> & H1).
  { intros d a ? ?%elem_of_elements. by apply Hd. }
  destruct (search_patterns_spec user_pattern allowed_users
              (elements header_from)) as (b2 & Hb2 & H2).
  { intros u a ? ?%elem_of_elements. by apply Hu. }
  simpl. destruct b1.
  - exists true. split; [done|]. split; [|done]. intros _. left.
    destruct H1 as [H1 _]. destruct H1 as (d & a & ? & ?%elem_of_elements & ?);
      [done|]. by exists d, a.
  - rewrite Hb2. simpl. exists b2. split; [by destruct b2|].
    rewrite H2. split.
    + intros (u & a & ? & ?%elem_of_elements & ?). right. by exists u, a.
    + intros [(d & a & ? & Ha & ?)|(u & a & ? & Ha & ?)].
      * destruct H1 as [_ H1]. discriminate H1. exists d, a.
        by rewrite elem_of_elements.
      * exists u, a. by rewrite elem_of_elements.
Qed.

End CheckAllowed.

(** ** Proofs: add_enforced_cc *)

Section EnforcedCc.
Context `{L : PyLib}.
Import ProcessEmailHeaders.

Lemma has_email_true (email : string) (s : gset addr) :
  has_email email s = true ↔ known_email email s.
Proof.
  unfold has_email, known_email, set_Exists. rewrite existsb_exists. split.
  - intros (t & Ht & Heq). apply bool_decide_eq_true in Heq.
    exists t. split; [|done].
    by apply elem_of_elements, list_elem_of_In.
  - intros (t & Ht & Heq). exists t. split.
    + by apply list_elem_of_In, elem_of_elements.
    + by apply bool_decide_eq_true.
Qed.

Lemma has_email_false (email : string) (s : gset addr) :
  has_email email s = false ↔ ¬ known_email email s.
Proof.
  rewrite <- has_email_true. by destruct (has_email email s).
Qed.

Lemma known_email_union (email : string) (s1 s2 : gset addr) :
  known_email email (s1 ∪ s2) ↔ known_email email s1 ∨ known_email email s2.
Proof. unfold known_email, set_Exists. set_solver. Qed.

(** One step of the loop: the address is added exactly when its email
    address is the one of no address of the three sets. *)
Lemma enforce_one_spec header_to header_from header_cc cc_addr :
  let email := (parseaddr cc_addr).2 in
  (known_email email (header_to ∪ header_cc ∪ header_from) ∧
     enforce_one header_to header_from header_cc cc_addr = header_cc) ∨
  (¬ known_email email (header_to ∪ header_cc ∪ header_from) ∧
     enforce_one header_to header_from header_cc cc_addr =
       {[parseaddr cc_addr]} ∪ header_cc).
Proof.
  intros email. unfold enforce_one. fold email.
  rewrite !known_email_union.
  destruct (has_email email header_to) eqn:Ht; simpl.
  { apply has_email_true in Ht. left. tauto. }
  destruct (has_email email header_cc) eqn:Hc; simpl.
  { apply has_email_true in Hc. left. tauto. }
  destruct (has_email email header_from) eqn:Hf; simpl.
  { apply has_email_true in Hf. left. tauto. }
  apply has_email_false in Ht, Hc, Hf. right. tauto.
Qed.

Lemma enforce_one_known header_to header_from header_cc cc_addr :
  known_email (parseaddr cc_addr).2
    (header_to ∪ enforce_one header_to header_from header_cc cc_addr ∪ header_from).
Proof.
  destruct (enforce_one_spec header_to header_from header_cc cc_addr)
    as [[Hk ->]|[_ ->]]; [done|].
  exists (parseaddr cc_addr). split; [set_solver|done].
Qed.

Lemma enforce_one_subseteq header_to header_from header_cc cc_addr :
  header_cc ⊆ enforce_one header_to header_from header_cc cc_addr.
Proof.
  destruct (enforce_one_spec header_to header_from header_cc cc_addr)
    as [[_ ->]|[_ ->]]; set_solver.
Qed.

Lemma add_enforced_cc_subseteq enforce_cc header_to header_from : ∀ header_cc,
  header_cc ⊆ add_enforced_cc enforce_cc header_to header_cc header_from.
Proof.
  unfold add_enforced_cc.
  induction enforce_cc as [|a l IH]; intros header_cc; simpl; [done|].
  etrans; [apply enforce_one_subseteq|apply IH].
Qed.

Lemma known_email_mono (email : string) (s1 s2 : gset addr) :
  s1 ⊆ s2 → known_email email s1 → known_email email s2.
Proof. unfold known_email, set_Exists. set_solver. Qed.

(** After the loop, every mandatory address is known. *)
Lemma add_enforced_cc_known enforce_cc header_to header_from : ∀ header_cc a,
  a ∈ enforce_cc →
  known_email (parseaddr a).2
    (header_to ∪ add_enforced_cc enforce_cc header_to header_cc header_from
       ∪ header_from).
Proof.
  unfold add_enforced_cc.
  induction enforce_cc as [|x l IH]; intros header_cc a Ha.
  - by apply elem_of_nil in Ha.
  - simpl. apply elem_of_cons in Ha as [->|Ha]; [|by apply IH].
    pose proof (add_enforced_cc_subseteq l header_to header_from
                  (enforce_one header_to header_from header_cc x)) as Hsub.
    unfold add_enforced_cc in Hsub.
    apply (known_email_mono _
             (header_to ∪ enforce_one header_to header_from header_cc x
                ∪ header_from)); [set_solver|apply enforce_one_known].
Qed.

(** A loop over addresses that are all known adds nothing. *)
Lemma add_enforced_cc_fixed enforce_cc header_to header_from header_cc :
  (∀ a, a ∈ enforce_cc →
        known_email (parseaddr a).2 (header_to ∪ header_cc ∪ header_from)) →
  add_enforced_cc enforce_cc header_to header_cc header_from = header_cc.
Proof.
  unfold add_enforced_cc.
  induction enforce_cc as [|x l IH]; intros Hk; simpl; [done|].
  destruct (enforce_one_spec header_to header_from header_cc x)
    as [[_ ->]|[Hn _]].
  - apply IH. intros a Ha. apply Hk. by right.
  - destruct Hn. apply Hk. left.
Qed.

(** What the loop adds: addresses of the mandatory list whose email
    address was the one of no address of the three sets. *)
Lemma add_enforced_cc_added enforce_cc header_to header_from : ∀ header_cc x,
  x ∈ add_enforced_cc enforce_cc header_to header_cc header_from →
  x ∈ header_cc ∨
  (∃ a, a ∈ enforce_cc ∧ x = parseaddr a ∧
        ¬ known_email x.2 (header_to ∪ header_cc ∪ header_from)).
Proof.
  unfold add_enforced_cc.
  induction enforce_cc as [|c l IH]; intros header_cc x Hx; simpl in Hx.
  - by left.
  - apply IH in Hx as [Hx|(a & Ha & -> & Hn)].
    + destruct (enforce_one_spec header_to header_from header_cc c)
        as [[_ Heq]|[Hn Heq]]; rewrite Heq in Hx; [by left|].
      apply elem_of_union in Hx as [->%elem_of_singleton|Hx]; [|by left].
      right. exists c. split; [left|done].
    + right. exists a. split; [by right|]. split; [done|].
      intros Hk. apply Hn. eapply known_email_mono; [|exact Hk].
      pose proof (enforce_one_subseteq header_to header_from header_cc c).
      set_solver.
Qed.

(** C4: applying [add_enforced_cc] again, with the same mandatory list, to
    the cc set that it produced (to set and from set unchanged) gives that
    cc set again; and an address is in the produced cc set only if it
    was there before or is a mandatory address whose email address was the
    one of no address of the to, cc and from sets.  Each step of the loop
    adds the address exactly when its email address is in none of the
    three sets at that time. *)
Theorem add_enforced_cc_idempotent enforce_cc header_to header_cc header_from :
  let once := add_enforced_cc enforce_cc header_to header_cc header_from in
  add_enforced_cc enforce_cc header_to once header_from = once ∧
  (∀ x, x ∈ once →
        x ∈ header_cc ∨
        (∃ a, a ∈ enforce_cc ∧ x = parseaddr a ∧
              ¬ known_email x.2 (header_to ∪ header_cc ∪ header_from))) ∧
  (∀ cc cc_addr,
     enforce_one header_to header_from cc cc_addr =
       if has_email (parseaddr cc_addr).2 (header_to ∪ cc ∪ header_from)
       then cc else {[parseaddr cc_addr]} ∪ cc).
Proof.
  intros once. split; [|split].
  - apply add_enforced_cc_fixed. intros a Ha.
    by apply add_enforced_cc_known.
  - intros x Hx. by apply add_enforced_cc_added.
  - intros cc cc_addr.
    destruct (enforce_one_spec header_to header_from cc cc_addr)
      as [[Hk ->]|[Hn ->]].
    + apply has_email_true in Hk. by rewrite Hk.
    + apply has_email_false in Hn. by rewrite Hn.
Qed.

End EnforcedCc.

(** ** Proofs: process_results *)

Section ProcessResults.
Context `{L : PyLib}.
Import ProcessEmailHeaders.

(** The inner loop discards the addresses of the list whose email address
    is the one of [addr_self]. *)
Lemma discard_loop (addr_self : addr) (l : list addr) : ∀ (acc : gset addr) x,
  x ∈ foldl (λ (acc : gset addr) (addr_to : addr),
               if decide (addr_self.2 = addr_to.2) then acc ∖ {[addr_to]} else acc)
            acc l
  ↔ x ∈ acc ∧ ¬ (x ∈ l ∧ addr_self.2 = x.2).
Proof.
  induction l as [|a l IH]; intros acc x; simpl.
  - split; [|tauto]. intros Hx. split; [done|].
    intros [Hin _]. by apply elem_of_nil in Hin.
  - rewrite IH. rewrite elem_of_cons. case_decide as Heq.
    + rewrite elem_of_difference, elem_of_singleton. split.
      * intros [[Hx Hne] Hn]. split; [done|]. intros [[->|Hl] He]; tauto.
      * intros [Hx Hn]. split; [split; [done|]|].
        -- intros ->. apply Hn. by split; [left|].
        -- intros [Hl He]. apply Hn. by split; [right|].
    + split.
      * intros [Hx Hn]. split; [done|]. intros [[->|Hl] He]; tauto.
      * intros [Hx Hn]. split; [done|]. intros [Hl He]. apply Hn.
        by split; [right|].
Qed.

Lemma discard_self_spec (header_to : gset addr) (addr_self x : addr) :
  x ∈ discard_self header_to addr_self ↔ x ∈ header_to ∧ addr_self.2 ≠ x.2.
Proof.
  unfold discard_self. rewrite discard_loop, elem_of_elements. tauto.
Qed.

Lemma discard_selves_spec (selves : list addr) : ∀ (header_to : gset addr) x,
  x ∈ foldl discard_self header_to selves
  ↔ x ∈ header_to ∧ ∀ s, s ∈ selves → s.2 ≠ x.2.
Proof.
  induction selves as [|a l IH]; intros header_to x; simpl.
  - split; [|tauto]. intros Hx. split; [done|].
    intros s Hs. by apply elem_of_nil in Hs.
  - rewrite IH, discard_self_spec. split.
    + intros [[Hx Hne] Hall]. split; [done|].
      intros s [->|Hs]%elem_of_cons; auto.
    + intros [Hx Hall]. split; [split; [done|]|].
      * apply Hall. left.
      * intros s Hs. apply Hall. by right.
Qed.

(** Lines 144-148 leave in [header_to] the addresses whose email address
    is the one of no address of [header_self]. *)
Lemma discard_selves_without_self (header_to header_self : gset addr) :
  foldl discard_self header_to (elements header_self)
  = without_self header_to header_self.
Proof.
  apply set_eq. intros x. unfold without_self.
  rewrite discard_selves_spec, elem_of_filter.
  unfold known_email, set_Exists. split.
  - intros [Hx Hall]. split; [|done].
    intros (s & Hs & Heq). by apply (Hall s); [apply elem_of_elements|].
  - intros [Hn Hx]. split; [done|].
    intros s Hs%elem_of_elements Heq. apply Hn. by exists s.
Qed.

(** [process_results] with a self address to pop. *)
Lemma process_results_returns (result : gmap string string)
    (header_from header_to header_cc header_self : gset addr)
    (header_references header_in_reply_to : string) (addr_self : addr)
    (rest : list addr) :
  elements header_self = addr_self :: rest →
  process_results result header_from header_to header_cc header_self
    header_references header_in_reply_to
  = Returned
      (<["in_reply_to" := header_in_reply_to]>
         (<["references" := header_references]>
            (<["from" := formataddr addr_self]>
               (<["cc" := join ", " (formataddr <$> elements header_cc)]>
                  (<["to" := join ", "
                       (formataddr <$>
                          elements (without_self header_to header_self
                                      ∪ header_from))]> result))))).
Proof.
  intros Hpop. unfold process_results, set_pop.
  rewrite discard_selves_without_self, Hpop. reflexivity.
Qed.

(** [process_results] with no self address. *)
Lemma process_results_raises (result : gmap string string)
    (header_from header_to header_cc : gset addr)
    (header_references header_in_reply_to : string) :
  process_results result header_from header_to header_cc ∅
    header_references header_in_reply_to
  = Raised (KeyError "pop from an empty set").
Proof.
  unfold process_results, set_pop. by rewrite elements_empty.
Qed.

End ProcessResults.

(** ** Proofs: run *)

Section Run.
Context `{L : PyLib}.
Import ProcessEmailHeaders.

Lemma search_patterns_nil mk patterns :
  search_patterns mk patterns [] = Returned false.
Proof. induction patterns as [|p l IH]; simpl; [done|]. apply IH. Qed.

(** With no from address nothing is searched, and the answer is false
    whatever the patterns are. *)
Lemma check_allowed_empty allowed_domains allowed_users :
  check_allowed ∅ allowed_domains allowed_users = Returned false.
Proof.
  unfold check_allowed. rewrite elements_empty, !search_patterns_nil.
  by destruct (truthy allowed_domains), (truthy allowed_users).
Qed.

Lemma add_address_from name st a :
  name ≠ FROM_HEADER_STRING →
  header_from (add_address name st a) = header_from st.
Proof. intros Hne. unfold add_address. repeat case_decide; done. Qed.

Lemma add_addresses_from name l : ∀ st,
  name ≠ FROM_HEADER_STRING →
  header_from (foldl (add_address name) st l) = header_from st.
Proof.
  induction l as [|a l IH]; intros st Hne; simpl; [done|].
  by rewrite IH, add_address_from.
Qed.

Lemma parse_header_from st h :
  h.1 ≠ FROM_HEADER_STRING →
  header_from (parse_header st h) = header_from st.
Proof.
  intros Hne. unfold parse_header.
  pose proof (add_addresses_from h.1 (split "," h.2) st Hne) as Hf.
  repeat case_bool_decide; repeat case_decide; simpl; congruence.
Qed.

Lemma parse_loop_from headers : ∀ st,
  (∀ h, h ∈ headers → h.1 ≠ FROM_HEADER_STRING) →
  header_from (foldl parse_header st headers) = header_from st.
Proof.
  induction headers as [|h hs IH]; intros st Hne; simpl; [done|].
  rewrite IH.
  - apply parse_header_from, Hne. left.
  - intros h' Hh'. apply Hne. by right.
Qed.

(** A header list without a [From] header leaves the from set empty. *)
Lemma parse_headers_no_from headers :
  (∀ h, h ∈ headers → h.1 ≠ FROM_HEADER_STRING) →
  header_from (parse_headers headers) = ∅.
Proof.
  intros Hne. unfold parse_headers.
  pose proof (parse_loop_from headers parsed_init Hne) as Hf.
  by destruct (nonempty _).
Qed.

(** The ordinary rejection: a sender that the lists do not allow is
    logged and the process exits with status 1. *)
Lemma run_rejects headers enforce_cc allowed_domains allowed_users :
  truthy allowed_domains || truthy allowed_users = true →
  check_allowed (header_from (parse_headers headers)) allowed_domains
    allowed_users = Returned false →
  header_from (parse_headers headers) ≠ ∅ →
  ∃ rejected,
    rejected ∈ header_from (parse_headers headers) ∧
    run headers enforce_cc allowed_domains allowed_users
    = (["User not permitted: " +:+ formataddr rejected], Exited 1).
Proof.
  intros Hpolicy Hcheck Hne. unfold run. rewrite Hpolicy, Hcheck.
  unfold set_pop.
  destruct (elements (header_from (parse_headers headers))) as [|a rest] eqn:He.
  - apply elements_empty_inv in He. destruct Hne. by apply leibniz_equiv.
  - exists a. split; [|done].
    apply elem_of_elements. rewrite He. left.
Qed.

Lemma add_address_self name st a :
  name ≠ DELIVERED_TO_HEADER_STRING →
  header_self (add_address name st a) = header_self st.
Proof. intros Hne. unfold add_address. repeat case_decide; done. Qed.

Lemma add_addresses_self name l : ∀ st,
  name ≠ DELIVERED_TO_HEADER_STRING →
  header_self (foldl (add_address name) st l) = header_self st.
Proof.
  induction l as [|a l IH]; intros st Hne; simpl; [done|].
  by rewrite IH, add_address_self.
Qed.

Lemma parse_header_self st h :
  h.1 ≠ DELIVERED_TO_HEADER_STRING →
  header_self (parse_header st h) = header_self st.
Proof.
  intros Hne. unfold parse_header.
  pose proof (add_addresses_self h.1 (split "," h.2) st Hne) as Hf.
  repeat case_bool_decide; repeat case_decide; simpl; congruence.
Qed.

Lemma parse_loop_self headers : ∀ st,
  (∀ h, h ∈ headers → h.1 ≠ DELIVERED_TO_HEADER_STRING) →
  header_self (foldl parse_header st headers) = header_self st.
Proof.
  induction headers as [|h hs IH]; intros st Hne; simpl; [done|].
  rewrite IH.
  - apply parse_header_self, Hne. left.
  - intros h' Hh'. apply Hne. by right.
Qed.

(** A header list without a [Delivered-To] header leaves the self set
    empty. *)
Lemma parse_headers_no_self headers :
  (∀ h, h ∈ headers → h.1 ≠ DELIVERED_TO_HEADER_STRING) →
  header_self (parse_headers headers) = ∅.
Proof.
  intros Hne. unfold parse_headers.
  pose proof (parse_loop_self headers parsed_init Hne) as Hf.
  by destruct (nonempty _).
Qed.

(** C6: [process_results] called with an empty self set raises the
    [KeyError] of [pop] on the empty set and returns no mapping, whatever
    its other arguments; so does [run], with no allow-list, on a header
    list that holds no [Delivered-To] header. *)
Theorem process_results_empty_self (result : gmap string string)
    (header_from header_to header_cc : gset addr)
    (header_references header_in_reply_to : string) :
  process_results result header_from header_to header_cc ∅
    header_references header_in_reply_to
  = Raised (KeyError "pop from an empty set") ∧
  (∀ headers enforce_cc,
     (∀ h, h ∈ headers → h.1 ≠ DELIVERED_TO_HEADER_STRING) →
     header_self (parse_headers headers) = ∅ ∧
     run headers enforce_cc [] [] = ([], Raised (KeyError "pop from an empty set"))).
Proof.
  split; [apply process_results_raises|].
  intros headers enforce_cc Hne.
  pose proof (parse_headers_no_self headers Hne) as Hself.
  split; [done|]. unfold run. simpl. rewrite Hself.
  unfold lift. by rewrite process_results_raises.
Qed.

(** C10: when a domain or user list is given and the header list holds no
    [From] header, the from set is empty, [check_allowed] answers false,
    and [run] raises the [KeyError] of [pop] on the empty set, while it
    builds the log line: nothing is logged and the process does not exit
    with status 1. *)
Theorem run_no_from_header headers enforce_cc allowed_domains allowed_users :
  truthy allowed_domains || truthy allowed_users = true →
  (∀ h, h ∈ headers → h.1 ≠ FROM_HEADER_STRING) →
  header_from (parse_headers headers) = ∅ ∧
  check_allowed (header_from (parse_headers headers)) allowed_domains
    allowed_users = Returned false ∧
  run headers enforce_cc allowed_domains allowed_users
  = ([], Raised (KeyError "pop from an empty set")).
Proof.
  intros Hpolicy Hne.
  pose proof (parse_headers_no_from headers Hne) as Hfrom.
  split; [done|]. rewrite Hfrom. split; [apply check_allowed_empty|].
  unfold run. rewrite Hpolicy, Hfrom, check_allowed_empty.
  unfold set_pop. by rewrite elements_empty.
Qed.

End Run.

(** ** The scenarios of the specification, on the model of the library *)


Import Scenarios.
Import ProcessEmailHeaders.

(** C1, as amended: for the headers [From: Alice <alice@a.com>],
    [To: Bob <bob@b.com>], [Delivered-To: Bob <bob@b.com>], the mandatory
    cc list [audit@a.com] and no allow-list, [run] logs nothing and returns
    a mapping whose [to] is [Alice <alice@a.com>], whose [cc] is
    [audit@a.com] (an address with an empty display name is rendered bare,
    without angle brackets) and whose [from] is [Bob <bob@b.com>]. *)
Theorem run_alice_to_bob :
  let r := ProcessEmailHeaders.run (L := PyModel.lib) alice_to_bob ["audit@a.com"] [] [] in
  r.1 = [] ∧
  field "to" r = Some "Alice <alice@a.com>" ∧
  field "cc" r = Some "audit@a.com" ∧
  field "from" r = Some "Bob <bob@b.com>".
Proof. vm_compute. repeat split. Qed.

(** C1 as stated fails: the [cc] field of that call is [audit@a.com], not
    [<audit@a.com>]. *)
Lemma run_alice_to_bob_cc_not_bracketed :
  field "cc" (ProcessEmailHeaders.run (L := PyModel.lib) alice_to_bob ["audit@a.com"] [] [])
  = Some "audit@a.com" ∧
  "audit@a.com" ≠ "<audit@a.com>".
Proof. split; [by vm_compute|done]. Qed.

(** C2 as stated fails: two [References] headers are appended with no
    space between them, and an empty [Message-Id] value is not appended. *)
Lemma parse_headers_not_space_joined :
  let two := [("References", "<a@x>"); ("References", "<b@x>")] in
  let empty_id := [("References", "<a@x>"); ("Message-Id", "")] in
  ProcessEmailHeaders.header_references (ProcessEmailHeaders.parse_headers (L := PyModel.lib) two)
    = "<a@x><b@x>" ∧
  space_joined_references two = "<a@x> <b@x>" ∧
  ProcessEmailHeaders.header_references
    (ProcessEmailHeaders.parse_headers (L := PyModel.lib) empty_id) = "<a@x>" ∧
  space_joined_references empty_id = "<a@x> ".
Proof. vm_compute. repeat split. Qed.

(** C3, as amended: when every pattern built from the two lists compiles
    (the search over the from addresses raises no [re.error]),
    [check_allowed] returns, and it returns true if and only if the email
    address of some from address matches [@ + d + $] for some [d] of
    [allowed_domains] or [^ + u + $] for some [u] of [allowed_users].  The
    address [user@corp.com] is allowed by the domain list [corp.com] and not
    by the domain list [other.com]. *)
Theorem check_allowed_matches :
  (∀ (L : PyLib) (header_from : gset addr) allowed_domains allowed_users,
     (∀ d a, d ∈ allowed_domains → a ∈ header_from →
             compiles (domain_pattern d) a) →
     (∀ u a, u ∈ allowed_users → a ∈ header_from →
             compiles (user_pattern u) a) →
     ∃ b, check_allowed header_from allowed_domains allowed_users = Returned b ∧
          (b = true ↔
             (∃ d a, d ∈ allowed_domains ∧ a ∈ header_from ∧
                     matches (domain_pattern d) a) ∨
             (∃ u a, u ∈ allowed_users ∧ a ∈ header_from ∧
                     matches (user_pattern u) a))) ∧
  check_allowed (L := PyModel.lib) {[("", "user@corp.com")]} ["corp.com"] []
    = Returned true ∧
  check_allowed (L := PyModel.lib) {[("", "user@corp.com")]} ["other.com"] []
    = Returned false.
Proof.
  split; [|by vm_compute].
  intros L header_from allowed_domains allowed_users.
  apply check_allowed_spec.
Qed.

(** The general part of C3 at the first example of the specification. *)
Lemma check_allowed_matches_witness :
  ∃ b, check_allowed (L := PyModel.lib) {[("", "user@corp.com")]} ["corp.com"] []
         = Returned b ∧
       (b = true ↔
          (∃ d a, d ∈ ["corp.com"] ∧ a ∈ ({[("", "user@corp.com")]} : gset addr) ∧
                  matches (L := PyModel.lib) (domain_pattern d) a) ∨
          (∃ u a, u ∈ ([] : list string) ∧
                  a ∈ ({[("", "user@corp.com")]} : gset addr) ∧
                  matches (L := PyModel.lib) (user_pattern u) a)).
Proof.
  apply (proj1 check_allowed_matches PyModel.lib).
  - intros d a ->%list_elem_of_singleton ->%elem_of_singleton.
    exists true. by vm_compute.
  - intros u a Hu. by apply elem_of_nil in Hu.
Defined.

(** C3 as stated fails: the user pattern [*] does not compile, so the call
    raises [re.error], although the second user pattern matches the
    address. *)
Lemma check_allowed_malformed_pattern :
  check_allowed (L := PyModel.lib) {[("", "user@corp.com")]} []
    ["*"; "user@corp.com"]
  = Raised (ReError "nothing to repeat") ∧
  matches (L := PyModel.lib) (user_pattern "user@corp.com") ("", "user@corp.com").
Proof. split; by vm_compute. Qed.

(** C5: with a self address to pop, [process_results] returns a mapping
    whose [to] field renders the addresses of the to set whose email address
    is the one of no self address, together with the from set, each of them
    once and in some order (Python iterates a set in hash order, so the
    order of the rendered addresses is left open: [rendered] is a
    permutation of the elements of the set), and whose [from] field renders
    a self address.  For the headers [From: A <a@x.com>], [To: B <b@y.com>],
    [Delivered-To: B <b@y.com>] the [to] string contains [A <a@x.com>] and
    not [B <b@y.com>], and [from] is [B <b@y.com>]. *)
Theorem process_results_self_deduplication :
  (∀ (L : PyLib) (result : gmap string string)
     (header_from header_to header_cc header_self : gset addr)
     (header_references header_in_reply_to : string),
     header_self ≠ ∅ →
     ∃ m addr_self rendered,
       process_results result header_from header_to header_cc header_self
         header_references header_in_reply_to = Returned m ∧
       rendered ≡ₚ elements (without_self header_to header_self ∪ header_from) ∧
       m !! "to" = Some (join ", " (formataddr <$> rendered)) ∧
       addr_self ∈ header_self ∧
       m !! "from" = Some (formataddr addr_self)) ∧
  (∀ header_to header_self x,
     x ∈ without_self header_to header_self ↔
     x ∈ header_to ∧ ∀ s, s ∈ header_self → s.2 ≠ x.2) ∧
  (let p := parse_headers (L := PyModel.lib) a_to_b in
   let r := lift (process_results (L := PyModel.lib) result_init
                    (header_from p) (header_to p) (header_cc p) (header_self p)
                    (header_references p) (header_reply_to p)) in
   ∃ to, field "to" r = Some to ∧
         contains "A <a@x.com>" to = true ∧
         contains "B <b@y.com>" to = false ∧
         field "from" r = Some "B <b@y.com>").
Proof.
  split; [|split].
  - intros L result header_from header_to header_cc header_self
      header_references header_in_reply_to Hne.
    destruct (elements header_self) as [|addr_self rest] eqn:He.
    { apply elements_empty_inv in He. destruct Hne. by apply leibniz_equiv. }
    eexists _, addr_self, _. split; [by eapply process_results_returns|].
    split; [reflexivity|]. split; [|split].
    + do 4 (rewrite lookup_insert_ne by done). apply lookup_insert_eq.
    + apply elem_of_elements. rewrite He. left.
    + do 2 (rewrite lookup_insert_ne by done). apply lookup_insert_eq.
  - intros header_to header_self x. unfold without_self.
    rewrite elem_of_filter. unfold known_email, set_Exists. split.
    + intros [Hn Hx]. split; [done|]. intros s Hs Heq. apply Hn. by exists s.
    + intros [Hx Hall]. split; [|done]. intros (s & Hs & Heq). by apply (Hall s).
  - exists "A <a@x.com>". by vm_compute.
Qed.

(** The general part of C5 at the headers of the scenario. *)
Lemma process_results_self_deduplication_witness :
  let p := parse_headers (L := PyModel.lib) a_to_b in
  ∃ m addr_self rendered,
    process_results (L := PyModel.lib) result_init (header_from p) (header_to p)
      (header_cc p) (header_self p) (header_references p) (header_reply_to p)
    = Returned m ∧
    rendered ≡ₚ elements (without_self (header_to p) (header_self p)
                            ∪ header_from p) ∧
    m !! "to" = Some (join ", " (PyModel.formataddr <$> rendered)) ∧
    addr_self ∈ header_self p ∧
    m !! "from" = Some (PyModel.formataddr addr_self).
Proof.
  intros p.
  apply (proj1 process_results_self_deduplication PyModel.lib).
  intros He. apply (f_equal elements) in He. by vm_compute in He.
Defined.

(** C4 at the mandatory list of the end-to-end scenario: the audit address
    is in the produced cc set, and it is the parsed mandatory address whose
    email address was in none of the three sets. *)
Lemma add_enforced_cc_idempotent_witness :
  let header_to : gset addr := {[("Bob", "bob@b.com")]} in
  let header_from : gset addr := {[("Alice", "alice@a.com")]} in
  let once := add_enforced_cc (L := PyModel.lib) ["audit@a.com"] header_to ∅
                header_from in
  ("", "audit@a.com") ∈ once ∧
  (("", "audit@a.com") ∈ (∅ : gset addr) ∨
   ∃ a, a ∈ ["audit@a.com"] ∧
        ("", "audit@a.com") = parseaddr (PyLib := PyModel.lib) a ∧
        ¬ known_email "audit@a.com" (header_to ∪ ∅ ∪ header_from)).
Proof.
  intros header_to header_from once.
  assert (("", "audit@a.com") ∈ once) as Hin.
  { apply elem_of_elements. vm_compute. left. }
  split; [done|].
  apply (proj1 (proj2 (add_enforced_cc_idempotent (L := PyModel.lib)
                         ["audit@a.com"] header_to ∅ header_from))
           ("", "audit@a.com") Hin).
Defined.

(** C6 at a message with no [Delivered-To] header. *)
Lemma process_results_empty_self_witness :
  let headers := [("From", "Alice <alice@a.com>"); ("To", "Bob <bob@b.com>")] in
  header_self (parse_headers (L := PyModel.lib) headers) = ∅ ∧
  ProcessEmailHeaders.run (L := PyModel.lib) headers ["audit@a.com"] [] []
  = ([], Raised (KeyError "pop from an empty set")).
Proof.
  intros headers.
  apply (proj2 (process_results_empty_self (L := PyModel.lib) ∅ ∅ ∅ ∅ "" "")).
  intros h Hh. unfold headers in Hh.
  apply elem_of_cons in Hh as [->|Hh]; [done|].
  apply list_elem_of_singleton in Hh as ->. done.
Defined.

(** C7 fails on a message with no [From] header: an allow-list is given
    and [check_allowed] answers false, yet [run] neither logs a line nor
    exits with status 1; it raises the [KeyError] of [pop] on the empty
    from set. *)
Theorem run_rejection_without_sender :
  check_allowed (L := PyModel.lib)
    (header_from (parse_headers (L := PyModel.lib) no_sender)) ["corp.com"] []
  = Returned false ∧
  ProcessEmailHeaders.run (L := PyModel.lib) no_sender [] ["corp.com"] []
  = ([], Raised (KeyError "pop from an empty set")).
Proof. split; by vm_compute. Qed.

(** C10 at a message with no [From] header and a domain list. *)
Lemma run_no_from_header_witness :
  header_from (parse_headers (L := PyModel.lib) no_sender) = ∅ ∧
  check_allowed (L := PyModel.lib)
    (header_from (parse_headers (L := PyModel.lib) no_sender)) ["corp.com"] []
  = Returned false ∧
  ProcessEmailHeaders.run (L := PyModel.lib) no_sender [] ["corp.com"] []
  = ([], Raised (KeyError "pop from an empty set")).
Proof.
  apply (run_no_from_header (L := PyModel.lib)); [reflexivity|].
  intros h Hh. unfold no_sender in Hh.
  apply elem_of_cons in Hh as [->|Hh]; [done|].
  apply list_elem_of_singleton in Hh as ->. done.
Defined.

(** ** Proofs: the account of send_html_email.py *)

Section Contains.

Lemma prefix_nil_l (s : string) : String.prefix "" s = true.
Proof. by destruct s. Qed.

Lemma prefix_app (k s t : string) :
  String.prefix k s = true → String.prefix k (s +:+ t) = true.
Proof.
  revert s. induction k as [|c k IH]; intros s Hp.
  - apply prefix_nil_l.
  - destruct s as [|x s]; [done|]. rewrite append_cons. simpl in *.
    destruct (ascii_dec c x); [|done]. by apply IH.
Qed.

Lemma prefix_refl (k : string) : String.prefix k k = true.
Proof.
  induction k as [|c k IH]; [done|]. simpl.
  by destruct (ascii_dec c c).
Qed.

Lemma contains_unfold (k s : string) :
  contains k s =
    String.prefix k s ||
    match s with
    | "" => false
    | String _ s' => contains k s'
    end.
Proof. by destruct s. Qed.

Lemma contains_refl (k : string) : contains k k = true.
Proof. by rewrite contains_unfold, prefix_refl. Qed.

Lemma contains_app_l (k s t : string) :
  contains k s = true → contains k (s +:+ t) = true.
Proof.
  induction s as [|x s IH]; intros Hc; rewrite contains_unfold in Hc.
  - rewrite orb_false_r in Hc. rewrite contains_unfold.
    by rewrite (prefix_app _ _ t Hc).
  - rewrite contains_unfold. apply orb_true_iff in Hc as [Hp|Hc].
    + by rewrite (prefix_app _ _ t Hp).
    + rewrite append_cons, (IH Hc). apply orb_true_r.
Qed.

Lemma contains_app_r (k s t : string) :
  contains k t = true → contains k (s +:+ t) = true.
Proof.
  intros Hc. induction s as [|x s IH]; [done|].
  rewrite contains_unfold, append_cons, IH. apply orb_true_r.
Qed.

(** A joined list of strings contains each of them. *)
Lemma contains_join (sep k : string) (l : list string) :
  k ∈ l → contains k (join sep l) = true.
Proof.
  unfold join. induction l as [|x l IH]; intros Hk.
  - by apply elem_of_nil in Hk.
  - apply elem_of_cons in Hk as [->|Hk].
    + destruct l; simpl; [apply contains_refl|].
      apply contains_app_l, contains_refl.
    + destruct l as [|y l]; [by apply elem_of_nil in Hk|].
      change (String.concat sep (x :: y :: l))
        with (x +:+ sep +:+ String.concat sep (y :: l)).
      by apply contains_app_r, contains_app_r, IH.
Qed.

End Contains.

Section Account.
Import SendEmail.

Lemma lookup_account_missing cfg account st :
  imap_mailboxes cfg = None →
  lookup_account cfg account st = (st, Raised (ValueError missing_mailboxes)).
Proof. intros Hc. unfold lookup_account. by rewrite Hc. Qed.

Lemma lookup_account_empty cfg account st :
  imap_mailboxes cfg = Some ∅ →
  lookup_account cfg account st
  = (st, Raised (ValueError "at least one account is required to send email.")).
Proof.
  intros Hc. unfold lookup_account. rewrite Hc.
  by rewrite map_to_list_empty.
Qed.

Lemma lookup_account_unknown cfg account accounts st :
  imap_mailboxes cfg = Some accounts →
  accounts ≠ ∅ →
  accounts !! account = None →
  lookup_account cfg account st
  = (st, Raised (KeyError (unknown_account account accounts))).
Proof.
  intros Hc Hne Hnone. unfold lookup_account. rewrite Hc, Hnone.
  destruct (map_to_list accounts) eqn:Hl; [|done].
  by apply map_to_list_empty_iff in Hl.
Qed.

(** The message of the [KeyError] holds every configured account name. *)
Lemma unknown_account_lists account (accounts : gmap string account_data) name :
  name ∈ dom accounts →
  contains name (unknown_account account accounts) = true.
Proof.
  intros [v Hv]%elem_of_dom. unfold unknown_account.
  do 5 apply contains_app_r. apply contains_join.
  apply list_elem_of_fmap. exists (name, v). split; [done|].
  by apply elem_of_map_to_list.
Qed.

(** C8: with no [imap_mailboxes] value, or an empty one, [run] raises a
    [ValueError]; with accounts of which none has the requested name it
    raises a [KeyError], a different exception, whose message contains
    every configured account name.  In both cases the store of MIME objects
    and the trace of events are as they were before the call: no message
    was built and no SMTP connection was opened. *)
Theorem run_account_errors (w : world) (cfg : config)
    (email_from email_to email_cc email_references email_in_reply_to subject
     account message_text message_html : string)
    (message_images : list string) (st : state) :
  let r := run w cfg email_from email_to email_cc email_references
             email_in_reply_to subject account message_text message_html
             message_images st in
  (imap_mailboxes cfg = None ∨ imap_mailboxes cfg = Some ∅ →
   ∃ msg, r = (st, Raised (ValueError msg))) ∧
  (∀ accounts,
     imap_mailboxes cfg = Some accounts →
     accounts ≠ ∅ →
     accounts !! account = None →
     ∃ msg, r = (st, Raised (KeyError msg)) ∧
            ∀ name, name ∈ dom accounts → contains name msg = true).
Proof.
  intros r. subst r. unfold run. split.
  - intros [Hc|Hc].
    + exists missing_mailboxes.
      unfold mbind, M_mbind, M_bind.
      by rewrite (lookup_account_missing _ _ _ Hc).
    + eexists. unfold mbind, M_mbind, M_bind.
      by rewrite (lookup_account_empty _ _ _ Hc).
  - intros accounts Hc Hne Hnone. exists (unknown_account account accounts).
    split; [|apply unknown_account_lists].
    unfold mbind, M_mbind, M_bind.
    by rewrite (lookup_account_unknown _ _ _ _ Hc Hne Hnone).
Qed.

End Account.

(** ** Proofs: the message of send_html_email.py *)

Section Message.
Import SendEmail Store.

(** How a sequence of two steps ends. *)
Lemma M_bind_inv {A B : Type} (m : M A) (k : A → M B) st st' (o : outcome B) :
  M_bind m k st = (st', o) →
  (∃ st1 a, m st = (st1, Returned a) ∧ k a st1 = (st', o)) ∨
  (∃ e, m st = (st', Raised e) ∧ o = Raised e) ∨
  (∃ n, m st = (st', Exited n) ∧ o = Exited n).
Proof.
  unfold M_bind. destruct (m st) as [st1 [a|e|n]]; intros Hk.
  - left. by exists st1, a.
  - right. left. exists e. by inversion Hk.
  - right. right. exists n. by inversion Hk.
Qed.

(** Lines 57-74 never fail: they leave the store [store_before_images]
    and an empty trace, and the loop over the images starts from there. *)
Lemma build_message_before_images (w : world)
    (email_from email_to email_cc email_references email_in_reply_to subject
     message_text message_html : string) (message_images : list string) :
  ∃ toaddrs,
    build_message w email_from email_to email_cc email_references
      email_in_reply_to subject message_text message_html message_images
      state_init
    = M_bind (if truthy message_images
              then for_each (attach_image w 0) message_images
              else M_ret tt)
        (λ _, M_ret (0, toaddrs))
        (State (store_before_images email_from email_to email_cc
                  email_references email_in_reply_to subject message_text
                  message_html) []).
Proof.
  eexists. unfold build_message, store_before_images.
  destruct (nonempty message_text), (nonempty message_html); reflexivity.
Qed.

Lemma built_before_images
    (email_from email_to email_cc email_references email_in_reply_to subject
     message_text message_html : string) :
  built (alternative_parts message_text message_html)
    (store_before_images email_from email_to email_cc email_references
       email_in_reply_to subject message_text message_html).
Proof.
  unfold built, store_before_images, alternative_parts.
  do 2 eexists. exists [].
  destruct (nonempty message_text), (nonempty message_html); simpl;
    eexists; (split; [reflexivity|]); (split; [reflexivity|]);
    (split; [|constructor]);
    repeat (constructor; [by eexists _, _|]); constructor.
Qed.

(** Reading one image keeps the shape of the store: the image is a new
    object, and the root gets it as its last part. *)
Lemma built_attach_image texts (h : list mime_obj) d sub name value :
  built texts h →
  built texts (alter (with_part (length h)) 0
                 (alter (with_header name value) (length h)
                    (h ++ [MIMEImage d sub []]))).
Proof.
  intros (hs & pre & imgs & alt_locs & H0 & H1 & Htexts & Himgs).
  pose proof (lookup_lt_Some _ _ _ H0) as Hlen.
  assert (∀ j o, h !! j = Some o → j ≠ 0 →
            alter (with_part (length h)) 0
              (alter (with_header name value) (length h)
                 (h ++ [MIMEImage d sub []])) !! j = Some o) as Hkeep.
  { intros j o Hj Hne. pose proof (lookup_lt_Some _ _ _ Hj) as Hlt.
    rewrite list_lookup_alter_ne by done.
    rewrite list_lookup_alter_ne by lia.
    by rewrite lookup_app_l. }
  exists hs, pre, (imgs ++ [length h]), alt_locs. split; [|split; [|split]].
  - rewrite list_lookup_alter_eq. rewrite list_lookup_alter_ne by lia.
    rewrite lookup_app_l by done. by rewrite H0.
  - by apply Hkeep.
  - eapply Forall2_impl; [exact Htexts|].
    intros l t (text & s & Hl & ->). exists text, s. split; [|done].
    apply Hkeep; [done|]. intros ->. congruence.
  - apply Forall_app. split.
    + eapply Forall_impl; [exact Himgs|].
      intros l (d' & s' & hs' & Hl). exists d', s', hs'.
      apply Hkeep; [done|]. intros ->. congruence.
    + constructor; [|constructor].
      exists d, sub, [(name, value)].
      rewrite list_lookup_alter_ne by lia.
      rewrite list_lookup_alter_eq.
      rewrite lookup_app_r by done. by rewrite Nat.sub_diag.
Qed.

Lemma only_reads_snoc tr path :
  only_reads tr → only_reads (tr ++ [FileRead path]).
Proof.
  intros Htr. apply Forall_app. split; [done|].
  constructor; [by exists path|constructor].
Qed.

Lemma attach_image_built w image texts st st' o :
  attach_image w 0 image st = (st', o) →
  built texts (heap st) → only_reads (trace st) →
  built texts (heap st') ∧ only_reads (trace st').
Proof.
  unfold attach_image, mbind, M_mbind, M_bind, read_file, new, add_header,
    attach, update.
  intros Hrun Hb Htr.
  destruct (file_bytes w image) as [bytes|]; simpl in Hrun.
  - destruct (imghdr_what w bytes) as [sub|]; simpl in Hrun;
      inversion Hrun; subst; simpl;
      (split; [by apply built_attach_image|by apply only_reads_snoc]).
  - inversion Hrun; subst; simpl.
    split; [done|by apply only_reads_snoc].
Qed.

Lemma for_each_built w texts images : ∀ st st' o,
  for_each (attach_image w 0) images st = (st', o) →
  built texts (heap st) → only_reads (trace st) →
  built texts (heap st') ∧ only_reads (trace st').
Proof.
  induction images as [|image images IH]; intros st st' o Hrun Hb Htr.
  - inversion Hrun; subst. done.
  - simpl in Hrun. apply M_bind_inv in Hrun
      as [(st1 & [] & H1 & H2)|[(e & H1 & _)|(n & H1 & _)]].
    + destruct (attach_image_built _ _ _ _ _ _ H1 Hb Htr) as [Hb1 Htr1].
      by apply (IH st1 st' o).
    + by apply (attach_image_built _ _ _ _ _ _ H1).
    + by apply (attach_image_built _ _ _ _ _ _ H1).
Qed.

(** A store of that shape is serialised, and the alternative container
    of the message holds the text parts. *)
Lemma resolve_built texts (h : list mime_obj) :
  built texts h →
  ∃ hs pre images,
    resolve (S (length h)) h 0
    = Some (Multipart "related" hs pre
              (Multipart "alternative" [] None texts :: images)).
Proof.
  intros (hs & pre & imgs & alt_locs & H0 & H1 & Htexts & Himgs).
  pose proof (lookup_lt_Some _ _ _ H1) as Hlen.
  destruct (length h) as [|[|k]]; [lia..|].
  assert (mapM (resolve (S k) h) alt_locs = Some texts) as Halt.
  { apply mapM_Some_2. eapply Forall2_impl; [exact Htexts|].
    intros l t (text & s & Hl & ->). simpl. by rewrite Hl. }
  assert (is_Some (mapM (resolve (S (S k)) h) imgs)) as [images Hi].
  { apply mapM_is_Some. eapply Forall_impl; [exact Himgs|].
    intros l (d & s & hs' & Hl). simpl. by rewrite Hl. }
  exists hs, pre, images.
  change (resolve (S (S (S k))) h 0)
    with (match h !! 0 with
          | None => None
          | Some (MIMEText t s) => Some (Text t s)
          | Some (MIMEImage d s hs) => Some (Image d s hs)
          | Some (MIMEMultipart s hs pre ps) =>
              match mapM (resolve (S (S k)) h) ps with
              | Some ts => Some (Multipart s hs pre ts)
              | None => None
              end
          end).
  rewrite H0.
  change (mapM (resolve (S (S k)) h) (1 :: imgs))
    with (y ← resolve (S (S k)) h 1;
          ys ← mapM (resolve (S (S k)) h) imgs; mret (y :: ys)).
  change (resolve (S (S k)) h 1)
    with (match h !! 1 with
          | None => None
          | Some (MIMEText t s) => Some (Text t s)
          | Some (MIMEImage d s hs) => Some (Image d s hs)
          | Some (MIMEMultipart s hs pre ps) =>
              match mapM (resolve (S k) h) ps with
              | Some ts => Some (Multipart s hs pre ts)
              | None => None
              end
          end).
  rewrite H1, Halt. cbn [mbind option_bind]. by rewrite Hi.
Qed.

(** When [build_message] returns, the root is at place 0, the store has
    the shape [built] and nothing but files was touched. *)
Lemma build_message_built (w : world)
    (email_from email_to email_cc email_references email_in_reply_to subject
     message_text message_html : string) (message_images : list string)
    st' o :
  build_message w email_from email_to email_cc email_references
    email_in_reply_to subject message_text message_html message_images
    state_init = (st', o) →
  built (alternative_parts message_text message_html) (heap st') ∧
  only_reads (trace st') ∧
  ∀ root toaddrs, o = Returned (root, toaddrs) → root = 0.
Proof.
  destruct (build_message_before_images w email_from email_to email_cc
              email_references email_in_reply_to subject message_text
              message_html message_images) as [toaddrs ->].
  pose proof (built_before_images email_from email_to email_cc
                email_references email_in_reply_to subject message_text
                message_html) as Hb.
  assert (only_reads []) as Htr by constructor.
  intros Hrun. apply M_bind_inv in Hrun
    as [(st1 & [] & H1 & H2)|[(e & H1 & ->)|(n & H1 & ->)]].
  - inversion H2; subst.
    assert (built (alternative_parts message_text message_html) (heap st')
            ∧ only_reads (trace st')) as [? ?].
    { destruct (truthy message_images).
      - by apply (for_each_built _ _ _ _ _ _ H1).
      - by inversion H1; subst. }
    split; [done|]. split; [done|]. by intros root toaddrs' [= <- _].
  - assert (built (alternative_parts message_text message_html) (heap st')
            ∧ only_reads (trace st')) as [? ?].
    { destruct (truthy message_images).
      - by apply (for_each_built _ _ _ _ _ _ H1).
      - by inversion H1. }
    done.
  - assert (built (alternative_parts message_text message_html) (heap st')
            ∧ only_reads (trace st')) as [? ?].
    { destruct (truthy message_images).
      - by apply (for_each_built _ _ _ _ _ _ H1).
      - by inversion H1. }
    done.
Qed.

(** One event: the trace gets it, and the call goes on unless the event
    fails. *)
Lemma io_step {B : Type} w ev (k : unit → M B) st st' (o : outcome B) :
  M_bind (io w ev) k st = (st', o) →
  st' = State (heap st) (trace st ++ [ev]) ∨
  k tt (State (heap st) (trace st ++ [ev])) = (st', o).
Proof.
  unfold M_bind, io. destruct (smtp_error w ev); intros Hrun.
  - left. by inversion Hrun.
  - by right.
Qed.

Lemma io_last w ev st st' (o : outcome unit) :
  io w ev st = (st', o) → st' = State (heap st) (trace st ++ [ev]).
Proof.
  unfold io. destruct (smtp_error w ev); intros Hrun; by inversion Hrun.
Qed.

(** The only message that [send] hands to [sendmail] is the serialised
    message at [msg_root]. *)
Lemma send_sendmail w account_data email_from toaddrs msg_root st st' o
    sender rcpts m :
  send w account_data email_from toaddrs msg_root st = (st', o) →
  SmtpSendmail sender rcpts m ∈ trace st' →
  SmtpSendmail sender rcpts m ∈ trace st ∨
  resolve (S (length (heap st))) (heap st) msg_root = Some m.
Proof.
  unfold send, mbind, M_mbind. intros Hrun Hin.
  assert (∀ evs, SmtpSendmail sender rcpts m ∈ trace st ++ evs →
                 SmtpSendmail sender rcpts m ∉ evs →
                 SmtpSendmail sender rcpts m ∈ trace st) as Hold.
  { intros evs [?|?]%elem_of_app ?; done. }
  apply io_step in Hrun as [->|Hrun].
  { left. apply (Hold _ Hin). by intros ?%list_elem_of_singleton. }
  apply io_step in Hrun as [->|Hrun].
  { left. simpl in Hin. rewrite <- !app_assoc in Hin. apply (Hold _ Hin).
    simpl. rewrite !elem_of_cons, elem_of_nil. by intros [|[|]]. }
  apply io_step in Hrun as [->|Hrun].
  { left. simpl in Hin. rewrite <- !app_assoc in Hin. apply (Hold _ Hin).
    simpl. rewrite !elem_of_cons, elem_of_nil. by intros [|[|[|]]]. }
  apply io_step in Hrun as [->|Hrun].
  { left. simpl in Hin. rewrite <- !app_assoc in Hin. apply (Hold _ Hin).
    simpl. rewrite !elem_of_cons, elem_of_nil. by intros [|[|[|[|]]]]. }
  unfold M_bind at 1, as_string in Hrun. cbn [heap trace] in Hrun.
  destruct (resolve (S (length (heap st))) (heap st) msg_root)
    as [text|] eqn:Htext.
  - assert (st' = State (heap st)
                    (trace st ++
                       [SmtpConnect (server account_data) (port account_data) 20;
                        SmtpEhlo; SmtpStarttls;
                        SmtpLogin (username account_data) (password account_data);
                        SmtpSendmail email_from toaddrs text]) ∨
            st' = State (heap st)
                    (trace st ++
                       [SmtpConnect (server account_data) (port account_data) 20;
                        SmtpEhlo; SmtpStarttls;
                        SmtpLogin (username account_data) (password account_data);
                        SmtpSendmail email_from toaddrs text; SmtpQuit]))
      as Hst.
    { apply io_step in Hrun as [->|Hrun].
      - left. simpl. by rewrite <- !app_assoc.
      - right. apply io_last in Hrun as ->. simpl. by rewrite <- !app_assoc. }
    destruct Hst as [-> | ->]; simpl in Hin;
      apply elem_of_app in Hin as [Hin|Hin]; [by left| |by left|];
      rewrite !elem_of_cons, elem_of_nil in Hin;
      right; decompose [or] Hin; try discriminate; try done;
      match goal with H : SmtpSendmail _ _ _ = SmtpSendmail _ _ _ |- _ =>
        by inversion H end.
  - inversion Hrun; subst. left. simpl in Hin.
    rewrite <- !app_assoc in Hin. apply (Hold _ Hin).
    simpl. rewrite !elem_of_cons, elem_of_nil. by intros [|[|[|[|]]]].
Qed.

Lemma lookup_account_state cfg account st st' o :
  lookup_account cfg account st = (st', o) → st' = st.
Proof.
  unfold lookup_account.
  destruct (imap_mailboxes cfg) as [accounts|]; [|by intros [= <- _]].
  destruct (truthy (map_to_list accounts)); simpl; [|by intros [= <- _]].
  destruct (accounts !! account); by intros [= <- _].
Qed.

Lemma only_reads_no_sendmail tr sender rcpts m :
  only_reads tr → SmtpSendmail sender rcpts m ∉ tr.
Proof.
  intros Htr Hin. unfold only_reads in Htr. rewrite Forall_forall in Htr.
  by destruct (Htr _ Hin) as [path ?].
Qed.

End Message.

(** ** The email sender on the scenario inputs *)

(** C8 at an account name that the configuration does not hold: the
    [KeyError] names the one configured account, and the state is
    untouched. *)
Lemma run_account_errors_witness :
  ∃ msg,
    SendEmail.run friendly_world one_account "bob@b.com" "alice@a.com" "" "" ""
      "Hi" "nobody" "hello" "" [] SendEmail.state_init
    = (SendEmail.state_init, Raised (KeyError msg)) ∧
    ∀ name,
      name ∈ dom ({["alerts" := SendEmail.AccountData "smtp.example.org" 587
                                  "alerts@example.org" "secret"]}
                  : gmap string SendEmail.account_data) →
      contains name msg = true.
Proof.
  apply (proj2 (run_account_errors friendly_world one_account "bob@b.com"
                  "alice@a.com" "" "" "" "Hi" "nobody" "hello" "" []
                  SendEmail.state_init)).
  - reflexivity.
  - intros He. apply (f_equal (λ m, m !! "alerts")) in He.
    by vm_compute in He.
  - by vm_compute.
Defined.

(** ** Further properties of parse_headers *)

Section ParsedSets.
Context `{L : PyLib}.
Import ProcessEmailHeaders.

Lemma add_address_addresses f name st a :
  f ∈ [TO_HEADER_STRING; FROM_HEADER_STRING; CC_HEADER_STRING;
       DELIVERED_TO_HEADER_STRING] →
  addresses_of f (add_address name st a)
  = if decide (name = f) then {[parseaddr a]} ∪ addresses_of f st
    else addresses_of f st.
Proof.
  intros Hf. unfold addresses_of, add_address.
  repeat (apply elem_of_cons in Hf as [->|Hf]); [..|by apply elem_of_nil in Hf];
    repeat case_decide; simplify_eq; done.
Qed.

Lemma add_addresses_addresses f name l : ∀ st,
  f ∈ [TO_HEADER_STRING; FROM_HEADER_STRING; CC_HEADER_STRING;
       DELIVERED_TO_HEADER_STRING] →
  addresses_of f (foldl (add_address name) st l)
  = if decide (name = f)
    then list_to_set (parseaddr <$> l) ∪ addresses_of f st
    else addresses_of f st.
Proof.
  induction l as [|a l IH]; intros st Hf; simpl.
  - case_decide; [|done]. by rewrite union_empty_l_L.
  - rewrite IH, add_address_addresses by done.
    case_decide; [|done]. set_solver.
Qed.

(** The two string fields aside, [parse_header] is the loop over the
    addresses of the header. *)
Lemma parse_header_sets st h :
  let st' := if bool_decide (h.1 ∈ [TO_HEADER_STRING; FROM_HEADER_STRING;
                                    CC_HEADER_STRING;
                                    DELIVERED_TO_HEADER_STRING])
             then foldl (add_address h.1) st (split "," h.2)
             else st in
  header_to (parse_header st h) = header_to st' ∧
  header_from (parse_header st h) = header_from st' ∧
  header_cc (parse_header st h) = header_cc st' ∧
  header_self (parse_header st h) = header_self st'.
Proof.
  unfold parse_header. cbv zeta.
  destruct (decide (h.1 = MESSAGE_ID_STRING)),
    (decide (h.1 = REFERENCES_STRING)); simpl; done.
Qed.

Lemma parse_header_addresses f st h :
  f ∈ [TO_HEADER_STRING; FROM_HEADER_STRING; CC_HEADER_STRING;
       DELIVERED_TO_HEADER_STRING] →
  addresses_of f (parse_header st h)
  = if decide (h.1 = f)
    then list_to_set (parseaddr <$> split "," h.2) ∪ addresses_of f st
    else addresses_of f st.
Proof.
  intros Hf.
  pose proof (add_addresses_addresses f h.1 (split "," h.2) st Hf) as Hadd.
  destruct (parse_header_sets st h) as (Ht & Hfr & Hc & Hs).
  unfold addresses_of at 1. rewrite Ht, Hfr, Hc, Hs.
  fold (addresses_of f (if bool_decide (h.1 ∈ [TO_HEADER_STRING;
                                               FROM_HEADER_STRING;
                                               CC_HEADER_STRING;
                                               DELIVERED_TO_HEADER_STRING])
                        then foldl (add_address h.1) st (split "," h.2)
                        else st)).
  case_bool_decide as Hin; [done|].
  case_decide as Heq; [|done]. destruct Hin. rewrite Heq. exact Hf.
Qed.

Lemma parse_loop_addresses f headers : ∀ st,
  f ∈ [TO_HEADER_STRING; FROM_HEADER_STRING; CC_HEADER_STRING;
       DELIVERED_TO_HEADER_STRING] →
  addresses_of f (foldl parse_header st headers)
  = header_addresses f headers ∪ addresses_of f st.
Proof.
  unfold header_addresses.
  induction headers as [|h hs IH]; intros st Hf; simpl.
  - by rewrite union_empty_l_L.
  - rewrite IH, parse_header_addresses by done.
    rewrite filter_cons. case_decide.
    + rewrite bind_cons, fmap_app, list_to_set_app_L. set_solver.
    + done.
Qed.

Lemma parse_headers_addresses f headers :
  f ∈ [TO_HEADER_STRING; FROM_HEADER_STRING; CC_HEADER_STRING;
       DELIVERED_TO_HEADER_STRING] →
  addresses_of f (parse_headers headers) = header_addresses f headers.
Proof.
  intros Hf. unfold parse_headers.
  pose proof (parse_loop_addresses f headers parsed_init Hf) as Hloop.
  assert (addresses_of f parsed_init = ∅) as Hinit.
  { unfold addresses_of. by repeat case_decide. }
  rewrite Hinit, union_empty_r_L in Hloop.
  by destruct (nonempty _).
Qed.

(** X1: the to, from, cc and self sets that [parse_headers] returns hold
    exactly the parsed comma-separated pieces of the values of the [To],
    [From], [Cc] and [Delivered-To] headers: every occurrence of a header
    adds to its set, and a value with a comma gives several addresses. *)
Theorem parse_headers_address_sets headers :
  header_to (parse_headers headers)
    = header_addresses TO_HEADER_STRING headers ∧
  header_from (parse_headers headers)
    = header_addresses FROM_HEADER_STRING headers ∧
  header_cc (parse_headers headers)
    = header_addresses CC_HEADER_STRING headers ∧
  header_self (parse_headers headers)
    = header_addresses DELIVERED_TO_HEADER_STRING headers.
Proof.
  repeat split.
  - rewrite <- (parse_headers_addresses TO_HEADER_STRING) by set_solver. done.
  - rewrite <- (parse_headers_addresses FROM_HEADER_STRING) by set_solver. done.
  - rewrite <- (parse_headers_addresses CC_HEADER_STRING) by set_solver. done.
  - rewrite <- (parse_headers_addresses DELIVERED_TO_HEADER_STRING)
      by set_solver. done.
Qed.

Lemma parse_header_unrecognised st h :
  ¬ recognised h → parse_header st h = st.
Proof.
  unfold recognised, parse_header. intros Hn.
  rewrite bool_decide_eq_false_2 by set_solver.
  rewrite !decide_False by set_solver. done.
Qed.

Lemma parse_loop_recognised headers : ∀ st,
  foldl parse_header st (filter recognised headers)
  = foldl parse_header st headers.
Proof.
  induction headers as [|h hs IH]; intros st; [done|].
  rewrite filter_cons. case_decide as Hr; simpl.
  - apply IH.
  - by rewrite (parse_header_unrecognised st h Hr).
Qed.

(** X2: headers whose name is none of [To], [From], [Cc], [Delivered-To],
    [References] and [Message-Id], compared as they are written (case
    matters), have no effect: dropping them from the list leaves the result
    of [parse_headers] unchanged. *)
Theorem parse_headers_ignores_unrecognised headers :
  parse_headers (filter recognised headers) = parse_headers headers.
Proof. unfold parse_headers. by rewrite parse_loop_recognised. Qed.

End ParsedSets.

(** ** Further properties of check_allowed and add_enforced_cc *)

Section Policy.
Context `{L : PyLib}.
Import ProcessEmailHeaders.

(** X3: the domain patterns are tried before the user patterns, and the
    search stops at the first match: when the domain patterns compile and
    one of them matches a from address, [check_allowed] returns true
    whatever the user patterns are, malformed ones included. *)
Theorem check_allowed_domain_first (header_from : gset addr)
    (allowed_domains allowed_users : list string) :
  (∀ d a, d ∈ allowed_domains → a ∈ header_from →
          compiles (domain_pattern d) a) →
  (∃ d a, d ∈ allowed_domains ∧ a ∈ header_from ∧
          matches (domain_pattern d) a) →
  check_allowed header_from allowed_domains allowed_users = Returned true.
Proof.
  intros Hok (d & a & Hd & Ha & Hm). unfold check_allowed.
  rewrite !search_patterns_guard.
  destruct (search_patterns_spec domain_pattern allowed_domains
              (elements header_from)) as (b & -> & Hiff).
  { intros d' a' ? ?%elem_of_elements. by apply Hok. }
  assert (b = true) as ->; [|done].
  apply Hiff. exists d, a. by rewrite elem_of_elements.
Qed.

(** No two addresses of a set that the loop built from [header_cc] share
    an email address, unless both were in [header_cc]. *)
Lemma add_enforced_cc_distinct enforce_cc header_to header_from header_cc0 :
  ∀ header_cc,
    header_cc0 ⊆ header_cc →
    (∀ x y, x ∈ header_cc → y ∈ header_cc → x ∉ header_cc0 →
            x.2 = y.2 → x = y) →
    ∀ x y,
      x ∈ add_enforced_cc enforce_cc header_to header_cc header_from →
      y ∈ add_enforced_cc enforce_cc header_to header_cc header_from →
      x ∉ header_cc0 → x.2 = y.2 → x = y.
Proof.
  unfold add_enforced_cc.
  induction enforce_cc as [|c l IH]; intros header_cc Hsub Hinv; [done|].
  simpl. apply IH.
  - etrans; [exact Hsub|apply enforce_one_subseteq].
  - destruct (enforce_one_spec header_to header_from header_cc c)
      as [[_ ->]|[Hn ->]]; [done|].
    assert (∀ z, z ∈ header_cc → z.2 ≠ (parseaddr c).2) as Hfresh.
    { intros z Hz Heq. apply Hn. exists z. split; [set_solver|done]. }
    intros x y [->%elem_of_singleton|Hx]%elem_of_union
      [->%elem_of_singleton|Hy]%elem_of_union Hx0 Heq.
    + done.
    + by destruct (Hfresh y Hy).
    + by destruct (Hfresh x Hx).
    + by apply Hinv.
Qed.

(** X4: [add_enforced_cc] keeps every address of the cc set; afterwards
    the email address of every mandatory address is the one of some
    address of the to, cc or from set; an address that it added shares its
    email address with no other address of the new cc set and with no
    address of the to and from sets, so a mandatory address that is listed
    twice, or listed under two display names, is added once. *)
Theorem add_enforced_cc_invariants (enforce_cc : list string)
    (header_to header_cc header_from : gset addr) :
  let out := add_enforced_cc enforce_cc header_to header_cc header_from in
  header_cc ⊆ out ∧
  (∀ a, a ∈ enforce_cc →
        known_email (parseaddr a).2 (header_to ∪ out ∪ header_from)) ∧
  (∀ x y, x ∈ out → y ∈ out → x ∉ header_cc → x.2 = y.2 → x = y) ∧
  (∀ x, x ∈ out → x ∉ header_cc →
        ¬ known_email x.2 (header_to ∪ header_from)).
Proof.
  intros out. split; [|split; [|split]].
  - apply add_enforced_cc_subseteq.
  - intros a Ha. by apply add_enforced_cc_known.
  - apply (add_enforced_cc_distinct _ _ _ header_cc header_cc); [done|].
    intros x y Hx _ Hx0. by destruct Hx0.
  - intros x Hx Hx0.
    destruct (add_enforced_cc_added _ _ _ _ _ Hx) as [?|(a & _ & _ & Hn)];
      [done|].
    intros Hk. apply Hn. eapply known_email_mono; [|exact Hk]. set_solver.
Qed.

End Policy.

(** ** Further properties of process_results and run *)

Section Results.
Context `{L : PyLib}.
Import ProcessEmailHeaders.

(** X5: with a self address to pop, every from address is rendered in
    the [to] string, also one whose email address is a self address (only
    the to set is cleared of self addresses); so is every to address whose
    email address is no self address; every cc address is rendered in the
    [cc] string; and [references] and [in_reply_to] are handed through. *)
Theorem process_results_renders (result : gmap string string)
    (header_from header_to header_cc header_self : gset addr)
    (header_references header_in_reply_to : string) :
  header_self ≠ ∅ →
  ∃ m to cc,
    process_results result header_from header_to header_cc header_self
      header_references header_in_reply_to = Returned m ∧
    m !! "to" = Some to ∧ m !! "cc" = Some cc ∧
    (∀ a, a ∈ header_from → contains (formataddr a) to = true) ∧
    (∀ a, a ∈ header_to → ¬ known_email a.2 header_self →
          contains (formataddr a) to = true) ∧
    (∀ a, a ∈ header_cc → contains (formataddr a) cc = true) ∧
    m !! "references" = Some header_references ∧
    m !! "in_reply_to" = Some header_in_reply_to.
Proof.
  intros Hne.
  destruct (elements header_self) as [|addr_self rest] eqn:He.
  { apply elements_empty_inv in He. destruct Hne. by apply leibniz_equiv. }
  eexists _, _, _. split; [by eapply process_results_returns|].
  split; [do 4 (rewrite lookup_insert_ne by done); apply lookup_insert_eq|].
  split; [do 3 (rewrite lookup_insert_ne by done); apply lookup_insert_eq|].
  split; [|split; [|split; [|split]]].
  - intros a Ha. apply contains_join, list_elem_of_fmap.
    exists a. split; [done|]. apply elem_of_elements. set_solver.
  - intros a Ha Hn. apply contains_join, list_elem_of_fmap.
    exists a. split; [done|]. apply elem_of_elements, elem_of_union. left.
    unfold without_self. by apply elem_of_filter.
  - intros a Ha. apply contains_join, list_elem_of_fmap.
    exists a. split; [done|]. by apply elem_of_elements.
  - rewrite lookup_insert_ne by done. apply lookup_insert_eq.
  - apply lookup_insert_eq.
Qed.

(** What [run] returns, [process_results] returned, and nothing was
    logged. *)
Lemma run_returned headers enforce_cc allowed_domains allowed_users logs m :
  run headers enforce_cc allowed_domains allowed_users = (logs, Returned m) →
  let p := parse_headers headers in
  logs = [] ∧
  process_results result_init (header_from p) (header_to p)
    (if truthy enforce_cc
     then add_enforced_cc enforce_cc (header_to p) (header_cc p) (header_from p)
     else header_cc p)
    (header_self p) (header_references p) (header_reply_to p) = Returned m.
Proof.
  unfold run. cbv zeta.
  destruct (truthy allowed_domains || truthy allowed_users).
  - destruct (check_allowed _ _ _) as [[|]|e|n]; simpl.
    + destruct (process_results _ _ _ _ _ _ _); simpl; by intros [= <- <-].
    + unfold set_pop. destruct (elements _); simpl; intros ?; simplify_eq.
    + intros ?; simplify_eq.
    + intros ?; simplify_eq.
  - simpl. destruct (process_results _ _ _ _ _ _ _); simpl; by intros [= <- <-].
Qed.

(** X6: whenever [run] returns a mapping, nothing was logged, the mapping
    has exactly the keys [to], [from], [cc], [references] and
    [in_reply_to], its [in_reply_to] is the value of the last [Message-Id]
    header (empty when there is none), its [references] is what
    [parse_headers] made of the [References] and [Message-Id] headers, and
    the header list held a [Delivered-To] header. *)
Theorem run_returns_fields headers enforce_cc allowed_domains allowed_users
    logs m :
  run headers enforce_cc allowed_domains allowed_users = (logs, Returned m) →
  logs = [] ∧
  dom m = result_fields ∧
  m !! "in_reply_to" = Some (List.last (message_ids headers) "") ∧
  m !! "references"
    = Some (let refs := String.concat "" (references_values headers) in
            let id := List.last (message_ids headers) "" in
            if nonempty id then refs +:+ " " +:+ id else refs) ∧
  header_addresses DELIVERED_TO_HEADER_STRING headers ≠ ∅.
Proof.
  intros Hrun. apply run_returned in Hrun as [-> Hres]. split; [done|].
  cbv zeta in Hres. unfold process_results, set_pop in Hres.
  assert (header_reply_to (parse_headers headers)
          = List.last (message_ids headers) "" ∧
          header_references (parse_headers headers)
          = (let refs := String.concat "" (references_values headers) in
             let id := List.last (message_ids headers) "" in
             if nonempty id then refs +:+ " " +:+ id else refs))
    as [Hid Hrefs].
  { unfold parse_headers.
    destruct (parse_loop_strings headers parsed_init) as [Hr Hi].
    simpl in Hr, Hi. rewrite Hi. cbv zeta.
    destruct (nonempty (List.last (message_ids headers) "")); simpl;
      by rewrite ?Hr, ?Hi. }
  destruct (elements (header_self (parse_headers headers)))
    as [|addr_self rest] eqn:He; simpl in Hres; [done|].
  injection Hres as <-. split; [|split; [|split]].
  - rewrite !dom_insert_L. unfold result_init, result_fields.
    rewrite !dom_insert_L, dom_empty_L. simpl. set_solver.
  - by rewrite lookup_insert_eq, Hid.
  - rewrite lookup_insert_ne by done. by rewrite lookup_insert_eq, Hrefs.
  - rewrite <- (parse_headers_addresses DELIVERED_TO_HEADER_STRING)
      by set_solver.
    change (addresses_of DELIVERED_TO_HEADER_STRING (parse_headers headers))
      with (header_self (parse_headers headers)).
    intros Hempty. rewrite Hempty, elements_empty in He. done.
Qed.

(** X7: a sender that no pattern matches is rejected: when a domain or
    user list is given, every pattern compiles and matches no from
    address, and there is a from address, [run] logs one line,
    [User not permitted:] and a rendered from address, and exits with
    status 1; it returns no mapping and raises nothing. *)
Theorem run_rejects_unmatched_sender headers enforce_cc allowed_domains
    allowed_users :
  truthy allowed_domains || truthy allowed_users = true →
  header_from (parse_headers headers) ≠ ∅ →
  (∀ d a, d ∈ allowed_domains → a ∈ header_from (parse_headers headers) →
          re_search (domain_pattern d) a.2 = Returned false) →
  (∀ u a, u ∈ allowed_users → a ∈ header_from (parse_headers headers) →
          re_search (user_pattern u) a.2 = Returned false) →
  ∃ rejected,
    rejected ∈ header_from (parse_headers headers) ∧
    run headers enforce_cc allowed_domains allowed_users
    = (["User not permitted: " +:+ formataddr rejected], Exited 1).
Proof.
  intros Hpolicy Hne Hd Hu. apply run_rejects; [done| |done].
  destruct (check_allowed_spec (header_from (parse_headers headers))
              allowed_domains allowed_users) as (b & Hb & Hiff).
  { intros d a ? ?. exists false. by apply Hd. }
  { intros u a ? ?. exists false. by apply Hu. }
  rewrite Hb. destruct b; [|done].
  destruct Hiff as [Hiff _].
  destruct Hiff as [(d & a & ? & ? & Hm)|(u & a & ? & ? & Hm)]; [done|..];
    unfold matches in Hm.
  - rewrite Hd in Hm by done. discriminate.
  - rewrite Hu in Hm by done. discriminate.
Qed.

(** X8: a message that passes the check, or meets no allow-list, is never
    logged and the process never exits: [run] ends as [process_results]
    does on the parsed sets, the cc set extended by the mandatory
    addresses. *)
Theorem run_accepted headers enforce_cc allowed_domains allowed_users :
  let p := parse_headers headers in
  (truthy allowed_domains || truthy allowed_users = false ∨
   check_allowed (header_from p) allowed_domains allowed_users
   = Returned true) →
  run headers enforce_cc allowed_domains allowed_users
  = ([], process_results result_init (header_from p) (header_to p)
           (add_enforced_cc enforce_cc (header_to p) (header_cc p)
              (header_from p))
           (header_self p) (header_references p) (header_reply_to p)) ∧
  (header_self p = ∅ →
   run headers enforce_cc allowed_domains allowed_users
   = ([], Raised (KeyError "pop from an empty set"))) ∧
  (header_self p ≠ ∅ →
   ∃ m, run headers enforce_cc allowed_domains allowed_users
        = ([], Returned m)).
Proof.
  intros p Hok.
  assert ((if truthy enforce_cc
           then add_enforced_cc enforce_cc (header_to p) (header_cc p)
                  (header_from p)
           else header_cc p)
          = add_enforced_cc enforce_cc (header_to p) (header_cc p)
              (header_from p)) as Hcc.
  { by destruct enforce_cc. }
  assert (run headers enforce_cc allowed_domains allowed_users
          = ([], process_results result_init (header_from p) (header_to p)
                   (add_enforced_cc enforce_cc (header_to p) (header_cc p)
                      (header_from p))
                   (header_self p) (header_references p) (header_reply_to p)))
    as Hrun.
  { unfold run. cbv zeta. fold p. rewrite Hcc.
    destruct Hok as [-> | Hok].
    - simpl. by destruct (process_results _ _ _ _ _ _ _).
    - rewrite Hok.
      destruct (truthy allowed_domains || truthy allowed_users); simpl;
        by destruct (process_results _ _ _ _ _ _ _). }
  split; [done|]. rewrite Hrun. split.
  - intros ->. by rewrite process_results_raises.
  - intros Hne.
    destruct (elements (header_self p)) as [|addr_self rest] eqn:He.
    { apply elements_empty_inv in He. destruct Hne. by apply leibniz_equiv. }
    eexists. by erewrite process_results_returns.
Qed.

End Results.

(** ** Further properties of send_html_email.py: the message *)

Section SentMessage.
Import SendEmail Store Sent.

Lemma attach_image_readable w msg_root image bytes st :
  file_bytes w image = Some bytes →
  ∃ sub,
    image_part w image bytes
    = Image bytes sub [("Content-ID", "<" +:+ basename image +:+ ">")] ∧
    attach_image w msg_root image st
    = (State (alter (with_part (length (heap st))) msg_root
                (alter (with_header "Content-ID"
                          ("<" +:+ basename image +:+ ">"))
                   (length (heap st)) (heap st ++ [MIMEImage bytes sub []])))
             (trace st ++ [FileRead image]),
       Returned tt).
Proof.
  intros Hf. unfold image_part, attach_image, mbind, M_mbind, M_bind,
    read_file, new, add_header, attach, update.
  rewrite Hf. destruct (imghdr_what w bytes) as [sub|]; eexists; by split.
Qed.

Lemma attach_image_unreadable w msg_root image st :
  file_bytes w image = None →
  attach_image w msg_root image st
  = (State (heap st) (trace st ++ [FileRead image]), Raised (IOError image)).
Proof.
  intros Hf. unfold attach_image, mbind, M_mbind, M_bind, read_file.
  by rewrite Hf.
Qed.

Lemma built_exact_attach_image hs pre texts trees (h : list mime_obj)
    d sub name value :
  built_exact hs pre texts trees h →
  built_exact hs pre texts (trees ++ [Image d sub [(name, value)]])
    (alter (with_part (length h)) 0
       (alter (with_header name value) (length h)
          (h ++ [MIMEImage d sub []]))).
Proof.
  intros (alt_locs & img_locs & H0 & H1 & Htexts & Himgs).
  pose proof (lookup_lt_Some _ _ _ H0) as Hlen.
  assert (∀ j o, h !! j = Some o → j ≠ 0 →
            alter (with_part (length h)) 0
              (alter (with_header name value) (length h)
                 (h ++ [MIMEImage d sub []])) !! j = Some o) as Hkeep.
  { intros j o Hj Hne. pose proof (lookup_lt_Some _ _ _ Hj) as Hlt.
    rewrite list_lookup_alter_ne by done.
    rewrite list_lookup_alter_ne by lia.
    by rewrite lookup_app_l. }
  exists alt_locs, (img_locs ++ [length h]). split; [|split; [|split]].
  - rewrite list_lookup_alter_eq. rewrite list_lookup_alter_ne by lia.
    rewrite lookup_app_l by done. by rewrite H0.
  - by apply Hkeep.
  - eapply Forall2_impl; [exact Htexts|].
    intros l t (text & s & Hl & ->). exists text, s. split; [|done].
    apply Hkeep; [done|]. intros ->. congruence.
  - apply Forall2_app.
    + eapply Forall2_impl; [exact Himgs|].
      intros l t (d' & s' & hs' & Hl & ->). exists d', s', hs'.
      split; [|done]. apply Hkeep; [done|]. intros ->. congruence.
    + constructor; [|constructor].
      exists d, sub, [(name, value)]. split; [|done].
      rewrite list_lookup_alter_ne by lia.
      rewrite list_lookup_alter_eq.
      rewrite lookup_app_r by done. by rewrite Nat.sub_diag.
Qed.

(** The loop over images that can all be read. *)
Lemma for_each_readable w hs pre texts images bytes :
  readable w images bytes →
  ∀ st trees,
    built_exact hs pre texts trees (heap st) →
    ∃ st',
      for_each (attach_image w 0) images st = (st', Returned tt) ∧
      trace st' = trace st ++ (FileRead <$> images) ∧
      built_exact hs pre texts (trees ++ zip_with (image_part w) images bytes)
        (heap st').
Proof.
  induction 1 as [|image b images bytes Hf _ IH]; intros st trees Hb.
  - exists st. simpl. by rewrite !app_nil_r.
  - destruct (attach_image_readable w 0 image b st Hf) as (sub & Hpart & Hrun).
    simpl. unfold mbind, M_mbind, M_bind. rewrite Hrun.
    destruct (IH (State (alter (with_part (length (heap st))) 0
                           (alter (with_header "Content-ID"
                                     ("<" +:+ basename image +:+ ">"))
                              (length (heap st))
                              (heap st ++ [MIMEImage b sub []])))
                    (trace st ++ [FileRead image]))
                (trees ++ [image_part w image b]))
      as (st' & Hloop & Htr & Hb').
    { rewrite Hpart. by apply built_exact_attach_image. }
    exists st'. split; [done|]. simpl in Htr.
    rewrite <- !app_assoc in Htr, Hb'. by split.
Qed.

Lemma resolve_built_exact hs pre texts trees (h : list mime_obj) :
  built_exact hs pre texts trees h →
  resolve (S (length h)) h 0
  = Some (Multipart "related" hs pre
            (Multipart "alternative" [] None texts :: trees)).
Proof.
  intros (alt_locs & img_locs & H0 & H1 & Htexts & Himgs).
  pose proof (lookup_lt_Some _ _ _ H1) as Hlen.
  destruct (length h) as [|[|k]]; [lia..|].
  assert (mapM (resolve (S k) h) alt_locs = Some texts) as Halt.
  { apply mapM_Some_2. eapply Forall2_impl; [exact Htexts|].
    intros l t (text & s & Hl & ->). simpl. by rewrite Hl. }
  assert (mapM (resolve (S (S k)) h) img_locs = Some trees) as Hi.
  { apply mapM_Some_2. eapply Forall2_impl; [exact Himgs|].
    intros l t (d & s & hs' & Hl & ->). simpl. by rewrite Hl. }
  change (resolve (S (S (S k))) h 0)
    with (match h !! 0 with
          | None => None
          | Some (MIMEText t s) => Some (Text t s)
          | Some (MIMEImage d s hs) => Some (Image d s hs)
          | Some (MIMEMultipart s hs pre ps) =>
              match mapM (resolve (S (S k)) h) ps with
              | Some ts => Some (Multipart s hs pre ts)
              | None => None
              end
          end).
  rewrite H0.
  change (mapM (resolve (S (S k)) h) (1 :: img_locs))
    with (y ← resolve (S (S k)) h 1;
          ys ← mapM (resolve (S (S k)) h) img_locs; mret (y :: ys)).
  change (resolve (S (S k)) h 1)
    with (match h !! 1 with
          | None => None
          | Some (MIMEText t s) => Some (Text t s)
          | Some (MIMEImage d s hs) => Some (Image d s hs)
          | Some (MIMEMultipart s hs pre ps) =>
              match mapM (resolve (S k) h) ps with
              | Some ts => Some (Multipart s hs pre ts)
              | None => None
              end
          end).
  rewrite H1, Halt. cbn [mbind option_bind]. by rewrite Hi.
Qed.

Lemma built_exact_before_images
    (email_from email_to email_cc email_references email_in_reply_to subject
     message_text message_html : string) :
  built_exact
    (root_headers email_from email_to email_cc email_references
       email_in_reply_to subject)
    (Some "This is a multi-part message in MIME format.")
    (alternative_parts message_text message_html) []
    (store_before_images email_from email_to email_cc email_references
       email_in_reply_to subject message_text message_html).
Proof.
  unfold built_exact, store_before_images, alternative_parts, root_headers.
  destruct (nonempty message_text), (nonempty message_html); simpl;
    eexists _, []; (split; [reflexivity|]); (split; [reflexivity|]);
    (split; [|constructor]);
    repeat (constructor; [by eexists _, _|]); constructor.
Qed.

Lemma build_message_envelope (w : world)
    (email_from email_to email_cc email_references email_in_reply_to subject
     message_text message_html : string) (message_images : list string) :
  build_message w email_from email_to email_cc email_references
    email_in_reply_to subject message_text message_html message_images
    state_init
  = M_bind (if truthy message_images
            then for_each (attach_image w 0) message_images
            else M_ret tt)
      (λ _, M_ret (0, envelope email_to email_cc))
      (State (store_before_images email_from email_to email_cc
                email_references email_in_reply_to subject message_text
                message_html) []).
Proof.
  unfold build_message, store_before_images, envelope.
  destruct (nonempty message_text), (nonempty message_html); reflexivity.
Qed.

Lemma images_guard w (message_images : list string) :
  (if truthy message_images
   then for_each (attach_image w 0) message_images
   else M_ret tt)
  = for_each (attach_image w 0) message_images.
Proof. by destruct message_images. Qed.

(** When every image can be read, [build_message] returns the root and
    the envelope, reads the files in order and leaves a store that is
    serialised to [message]. *)
Lemma build_message_readable (w : world)
    (email_from email_to email_cc email_references email_in_reply_to subject
     message_text message_html : string) (message_images bytes : list string) :
  readable w message_images bytes →
  ∃ st',
    build_message w email_from email_to email_cc email_references
      email_in_reply_to subject message_text message_html message_images
      state_init
    = (st', Returned (0, envelope email_to email_cc)) ∧
    trace st' = FileRead <$> message_images ∧
    resolve (S (length (heap st'))) (heap st') 0
    = Some (message w email_from email_to email_cc email_references
              email_in_reply_to subject message_text message_html
              message_images bytes).
Proof.
  intros Hread. rewrite build_message_envelope, images_guard.
  destruct (for_each_readable w
              (root_headers email_from email_to email_cc email_references
                 email_in_reply_to subject)
              (Some "This is a multi-part message in MIME format.")
              (alternative_parts message_text message_html) _ _ Hread
              (State (store_before_images email_from email_to email_cc
                        email_references email_in_reply_to subject
                        message_text message_html) []) [])
    as (st' & Hloop & Htr & Hb).
  { apply built_exact_before_images. }
  exists st'. unfold M_bind. rewrite Hloop. split; [done|]. split; [done|].
  by apply resolve_built_exact.
Qed.

End SentMessage.

(** ** Further properties of send_html_email.py: the session *)

Section SentSession.
Import SendEmail Store Sent.

Lemma lookup_account_found cfg account accounts d st :
  imap_mailboxes cfg = Some accounts →
  accounts !! account = Some d →
  lookup_account cfg account st = (st, Returned d).
Proof.
  intros Hc Hd. unfold lookup_account. rewrite Hc, Hd.
  destruct (map_to_list accounts) eqn:Hl; [|done].
  apply map_to_list_empty_iff in Hl. by rewrite Hl, lookup_empty in Hd.
Qed.

Lemma M_bind_io_ok {B : Type} w ev (k : unit → M B) st :
  smtp_error w ev = None →
  M_bind (io w ev) k st = k tt (State (heap st) (trace st ++ [ev])).
Proof. intros Hok. unfold M_bind, io. by rewrite Hok. Qed.

Lemma M_bind_io_fail {B : Type} w ev e (k : unit → M B) st :
  smtp_error w ev = Some e →
  M_bind (io w ev) k st = (State (heap st) (trace st ++ [ev]), Raised e).
Proof. intros Hfail. unfold M_bind, io. by rewrite Hfail. Qed.

Lemma io_ok w ev st :
  smtp_error w ev = None →
  io w ev st = (State (heap st) (trace st ++ [ev]), Returned tt).
Proof. intros Hok. unfold io. by rewrite Hok. Qed.

Lemma io_fail w ev e st :
  smtp_error w ev = Some e →
  io w ev st = (State (heap st) (trace st ++ [ev]), Raised e).
Proof. intros Hfail. unfold io. by rewrite Hfail. Qed.

Lemma M_bind_as_string {B : Type} l m (k : mime → M B) h tr :
  resolve (S (length h)) h l = Some m →
  M_bind (as_string l) k (State h tr) = k m (State h tr).
Proof. intros Hres. unfold M_bind, as_string. simpl heap. by rewrite Hres. Qed.

(** A session in which every call succeeds. *)
Lemma send_succeeds w d email_from toaddrs msg_root m st :
  (∀ ev, ev ∈ session d email_from toaddrs m → smtp_error w ev = None) →
  resolve (S (length (heap st))) (heap st) msg_root = Some m →
  send w d email_from toaddrs msg_root st
  = (State (heap st) (trace st ++ session d email_from toaddrs m), Returned tt).
Proof.
  intros Hok Hres. unfold send, mbind, M_mbind, session in *.
  rewrite !M_bind_io_ok by (apply Hok; set_solver).
  cbn [heap trace]. rewrite (M_bind_as_string _ m) by done.
  rewrite M_bind_io_ok by (apply Hok; set_solver).
  rewrite io_ok by (apply Hok; set_solver).
  cbn [heap trace]. by rewrite <- !app_assoc.
Qed.

(** X9: the first SMTP call that fails ends the session: [send] raises its
    exception, the calls before it were made in the order connect, EHLO,
    STARTTLS, login, sendmail, quit, and no call follows it; so when a call
    before [quit] fails, [quit] is not called. *)
Theorem send_first_failure w d email_from toaddrs msg_root m st k ev e :
  resolve (S (length (heap st))) (heap st) msg_root = Some m →
  session d email_from toaddrs m !! k = Some ev →
  smtp_error w ev = Some e →
  (∀ j ev', j < k → session d email_from toaddrs m !! j = Some ev' →
            smtp_error w ev' = None) →
  send w d email_from toaddrs msg_root st
  = (State (heap st)
       (trace st ++ take (S k) (session d email_from toaddrs m)),
     Raised e) ∧
  (k < 5 → SmtpQuit ∉ take (S k) (session d email_from toaddrs m)).
Proof.
  intros Hres Hk Hfail Hprev. unfold send, mbind, M_mbind, session in *.
  assert (∀ j ev', j < k →
            [SmtpConnect (server d) (port d) 20; SmtpEhlo; SmtpStarttls;
             SmtpLogin (username d) (password d);
             SmtpSendmail email_from toaddrs m; SmtpQuit] !! j = Some ev' →
            smtp_error w ev' = None) as Hp by exact Hprev.
  destruct k as [|[|[|[|[|[|k]]]]]]; simpl in Hk; try discriminate;
    injection Hk as <-.
  - split; [by rewrite (M_bind_io_fail _ _ e)|]. intros _. set_solver.
  - rewrite M_bind_io_ok by (apply (Hp 0); [lia|done]).
    split; [|intros _; set_solver].
    rewrite (M_bind_io_fail _ _ e) by done.
    cbn [heap trace]. by rewrite <- !app_assoc.
  - rewrite M_bind_io_ok by (apply (Hp 0); [lia|done]).
    rewrite M_bind_io_ok by (apply (Hp 1); [lia|done]).
    split; [|intros _; set_solver].
    rewrite (M_bind_io_fail _ _ e) by done.
    cbn [heap trace]. by rewrite <- !app_assoc.
  - rewrite M_bind_io_ok by (apply (Hp 0); [lia|done]).
    rewrite M_bind_io_ok by (apply (Hp 1); [lia|done]).
    rewrite M_bind_io_ok by (apply (Hp 2); [lia|done]).
    split; [|intros _; set_solver].
    rewrite (M_bind_io_fail _ _ e) by done.
    cbn [heap trace]. by rewrite <- !app_assoc.
  - rewrite M_bind_io_ok by (apply (Hp 0); [lia|done]).
    rewrite M_bind_io_ok by (apply (Hp 1); [lia|done]).
    rewrite M_bind_io_ok by (apply (Hp 2); [lia|done]).
    rewrite M_bind_io_ok by (apply (Hp 3); [lia|done]).
    cbn [heap trace]. rewrite (M_bind_as_string _ m) by done.
    split; [|intros _; set_solver].
    rewrite (M_bind_io_fail _ _ e) by done.
    cbn [heap trace]. by rewrite <- !app_assoc.
  - rewrite M_bind_io_ok by (apply (Hp 0); [lia|done]).
    rewrite M_bind_io_ok by (apply (Hp 1); [lia|done]).
    rewrite M_bind_io_ok by (apply (Hp 2); [lia|done]).
    rewrite M_bind_io_ok by (apply (Hp 3); [lia|done]).
    cbn [heap trace]. rewrite (M_bind_as_string _ m) by done.
    rewrite M_bind_io_ok by (apply (Hp 4); [lia|done]).
    split; [|lia].
    rewrite (io_fail _ _ e) by done.
    cbn [heap trace]. by rewrite <- !app_assoc.
Qed.

(** X10: the whole of [run] when nothing fails.  With the account
    configured, every image readable and every SMTP call accepted, [run]
    returns; it reads the image files in the order of the list, then makes
    the six SMTP calls in order, connecting to the server and port of the
    account with a timeout of 20 and logging in with its user name and
    password; the sender of [sendmail] is [email_from], the recipients are
    the pieces of [email_to] cut at comma-space followed, when [email_cc]
    is not empty, by those of [email_cc]; and the message is the root with
    the six headers in the order Subject, From, To, Cc, References,
    In-Reply-To, the preamble, the alternative container, and one image
    part for each file, in order, with the file name as its
    [Content-ID]. *)
Theorem run_sends (w : world) (cfg : config)
    (email_from email_to email_cc email_references email_in_reply_to subject
     account message_text message_html : string)
    (message_images bytes : list string)
    (accounts : gmap string account_data) (d : account_data) :
  imap_mailboxes cfg = Some accounts →
  accounts !! account = Some d →
  readable w message_images bytes →
  (∀ ev, smtp_error w ev = None) →
  ∃ st',
    run w cfg email_from email_to email_cc email_references
      email_in_reply_to subject account message_text message_html
      message_images state_init = (st', Returned tt) ∧
    trace st'
    = (FileRead <$> message_images) ++
      session d email_from (envelope email_to email_cc)
        (message w email_from email_to email_cc email_references
           email_in_reply_to subject message_text message_html
           message_images bytes).
Proof.
  intros Hc Hd Hread Hok. unfold run, mbind, M_mbind.
  unfold M_bind at 1. rewrite (lookup_account_found _ _ _ _ _ Hc Hd).
  destruct (build_message_readable w email_from email_to email_cc
              email_references email_in_reply_to subject message_text
              message_html message_images bytes Hread)
    as (st1 & Hbuild & Htr & Hres).
  unfold M_bind at 1. rewrite Hbuild.
  rewrite (send_succeeds _ _ _ _ _ _ _ (λ ev _, Hok ev) Hres).
  eexists. split; [done|]. simpl. by rewrite Htr.
Qed.

(** The loop over images of which one cannot be read. *)
Lemma for_each_unreadable w msg_root ok_images bad rest :
  Forall (λ image, is_Some (file_bytes w image)) ok_images →
  file_bytes w bad = None →
  ∀ st,
    ∃ st',
      for_each (attach_image w msg_root) (ok_images ++ bad :: rest) st
      = (st', Raised (IOError bad)) ∧
      trace st' = trace st ++ (FileRead <$> (ok_images ++ [bad])).
Proof.
  intros Hok Hbad. induction Hok as [|image ok_images [b Hb] _ IH]; intros st.
  - simpl. unfold mbind, M_mbind, M_bind.
    rewrite (attach_image_unreadable _ _ _ _ Hbad). by eexists.
  - destruct (attach_image_readable w msg_root image b st Hb)
      as (sub & _ & Hrun).
    simpl. unfold mbind, M_mbind, M_bind. rewrite Hrun.
    destruct (IH (State (alter (with_part (length (heap st))) msg_root
                           (alter (with_header "Content-ID"
                                     ("<" +:+ basename image +:+ ">"))
                              (length (heap st))
                              (heap st ++ [MIMEImage b sub []])))
                    (trace st ++ [FileRead image])))
      as (st' & Hloop & Htr).
    exists st'. split; [done|]. simpl in Htr. by rewrite <- app_assoc in Htr.
Qed.

(** X11: an image file that cannot be read stops [run] before any SMTP
    call: with the account configured, the files before it readable and
    the file [bad] not, [run] raises the [IOError] of [bad], and the trace
    holds the reads of the files up to [bad] and nothing else; no
    connection is opened and nothing is sent.  The images after [bad] are
    not read. *)
Theorem run_unreadable_image (w : world) (cfg : config)
    (email_from email_to email_cc email_references email_in_reply_to subject
     account message_text message_html : string)
    (ok_images : list string) (bad : string) (rest : list string)
    (accounts : gmap string account_data) (d : account_data) :
  imap_mailboxes cfg = Some accounts →
  accounts !! account = Some d →
  Forall (λ image, is_Some (file_bytes w image)) ok_images →
  file_bytes w bad = None →
  ∃ st',
    run w cfg email_from email_to email_cc email_references
      email_in_reply_to subject account message_text message_html
      (ok_images ++ bad :: rest) state_init = (st', Raised (IOError bad)) ∧
    trace st' = FileRead <$> (ok_images ++ [bad]).
Proof.
  intros Hc Hd Hok Hbad. unfold run, mbind, M_mbind.
  unfold M_bind at 1. rewrite (lookup_account_found _ _ _ _ _ Hc Hd).
  unfold M_bind at 1. rewrite build_message_envelope, images_guard.
  destruct (for_each_unreadable w 0 ok_images bad rest Hok Hbad
              (State (store_before_images email_from email_to email_cc
                        email_references email_in_reply_to subject
                        message_text message_html) []))
    as (st' & Hloop & Htr).
  unfold M_bind at 1. rewrite Hloop. by exists st'.
Qed.

End SentSession.

(** ** The alternative container *)

Section AlternativeParts.
Import SendEmail Store Sent.

(** C9: the message that [run] builds holds an [alternative] container as
    the first part of its root, and that container holds exactly
    [alternative_parts]: a plain-text part if and only if [message_text] is
    not empty, and an HTML part if and only if [message_html] is not empty,
    so either, both or none.  Whatever the two texts are, when the image
    files can be read [build_message] returns the root and the envelope,
    and the store is serialised to the root with its six headers, the
    preamble, the alternative container and the image parts; when moreover
    the account is configured and the server accepts every call, [run]
    returns and has handed that message to [sendmail].  Whenever
    [build_message] returns, the message is serialised and has that shape;
    every message handed to [sendmail] has that shape; and with both texts
    given both parts are in it, the plain-text part first. *)
Theorem run_alternative_parts (w : world) (cfg : config)
    (email_from email_to email_cc email_references email_in_reply_to subject
     account message_text message_html : string)
    (message_images : list string) :
  (∀ bytes,
     readable w message_images bytes →
     ∃ st',
       build_message w email_from email_to email_cc email_references
         email_in_reply_to subject message_text message_html message_images
         state_init = (st', Returned (0, envelope email_to email_cc)) ∧
       resolve (S (length (heap st'))) (heap st') 0
       = Some (Multipart "related"
                 (root_headers email_from email_to email_cc email_references
                    email_in_reply_to subject)
                 (Some "This is a multi-part message in MIME format.")
                 (Multipart "alternative" [] None
                    (alternative_parts message_text message_html)
                  :: zip_with (image_part w) message_images bytes))) ∧
  (∀ accounts d bytes,
     imap_mailboxes cfg = Some accounts →
     accounts !! account = Some d →
     readable w message_images bytes →
     (∀ ev, smtp_error w ev = None) →
     ∃ st',
       run w cfg email_from email_to email_cc email_references
         email_in_reply_to subject account message_text message_html
         message_images state_init = (st', Returned tt) ∧
       SmtpSendmail email_from (envelope email_to email_cc)
         (Multipart "related"
            (root_headers email_from email_to email_cc email_references
               email_in_reply_to subject)
            (Some "This is a multi-part message in MIME format.")
            (Multipart "alternative" [] None
               (alternative_parts message_text message_html)
             :: zip_with (image_part w) message_images bytes))
       ∈ trace st') ∧
  (∀ st' msg_root toaddrs,
     build_message w email_from email_to email_cc email_references
       email_in_reply_to subject message_text message_html message_images
       state_init = (st', Returned (msg_root, toaddrs)) →
     ∃ hs pre images,
       resolve (S (length (heap st'))) (heap st') msg_root
       = Some (Multipart "related" hs pre
                 (Multipart "alternative" [] None
                    (alternative_parts message_text message_html) :: images))) ∧
  (∀ st' o sender rcpts m,
     run w cfg email_from email_to email_cc email_references
       email_in_reply_to subject account message_text message_html
       message_images state_init = (st', o) →
     SmtpSendmail sender rcpts m ∈ trace st' →
     ∃ hs pre images,
       m = Multipart "related" hs pre
             (Multipart "alternative" [] None
                (alternative_parts message_text message_html) :: images)) ∧
  (∀ t, Text t "plain" ∈ alternative_parts message_text message_html ↔
        t = message_text ∧ nonempty message_text = true) ∧
  (∀ t, Text t "html" ∈ alternative_parts message_text message_html ↔
        t = message_html ∧ nonempty message_html = true) ∧
  (nonempty message_text = true → nonempty message_html = true →
   alternative_parts message_text message_html
   = [Text message_text "plain"; Text message_html "html"]).
Proof.
  split; [|split; [|split; [|split; [|split; [|split]]]]].
  - intros bytes Hread.
    destruct (build_message_readable w email_from email_to email_cc
                email_references email_in_reply_to subject message_text
                message_html message_images bytes Hread)
      as (st' & Hbuild & _ & Hres).
    by exists st'.
  - intros accounts d bytes Hc Hd Hread Hok. unfold run, mbind, M_mbind.
    unfold M_bind at 1. rewrite (lookup_account_found _ _ _ _ _ Hc Hd).
    destruct (build_message_readable w email_from email_to email_cc
                email_references email_in_reply_to subject message_text
                message_html message_images bytes Hread)
      as (st1 & Hbuild & _ & Hres).
    unfold M_bind at 1. rewrite Hbuild.
    rewrite (send_succeeds _ _ _ _ _ _ _ (λ ev _, Hok ev) Hres).
    eexists. split; [done|]. cbn [trace]. apply elem_of_app. right.
    unfold session, message. do 4 right. left.
  - intros st' msg_root toaddrs Hrun.
    destruct (build_message_built _ _ _ _ _ _ _ _ _ _ _ _ Hrun)
      as (Hb & _ & Hroot).
    rewrite (Hroot _ _ eq_refl). by apply resolve_built.
  - intros st' o sender rcpts m Hrun Hin.
    unfold run, mbind, M_mbind in Hrun.
    apply M_bind_inv in Hrun
      as [(st1 & d & H1 & Hrun)|[(e & H1 & _)|(n & H1 & _)]].
    2, 3: apply lookup_account_state in H1 as ->;
          by apply elem_of_nil in Hin.
    apply lookup_account_state in H1 as ->.
    apply M_bind_inv in Hrun
      as [(st2 & [msg_root toaddrs] & H2 & Hrun)|[(e & H2 & _)|(n & H2 & _)]].
    2, 3: destruct (build_message_built _ _ _ _ _ _ _ _ _ _ _ _ H2)
            as (_ & Htr & _);
          by destruct (only_reads_no_sendmail _ sender rcpts m Htr).
    destruct (build_message_built _ _ _ _ _ _ _ _ _ _ _ _ H2)
      as (Hb & Htr & Hroot).
    rewrite (Hroot _ _ eq_refl) in Hrun.
    destruct (send_sendmail _ _ _ _ _ _ _ _ _ _ _ Hrun Hin) as [Hold|Hm].
    { by destruct (only_reads_no_sendmail _ sender rcpts m Htr). }
    destruct (resolve_built _ _ Hb) as (hs & pre & images & Hres).
    exists hs, pre, images. congruence.
  - intros t. unfold alternative_parts.
    destruct (nonempty message_text), (nonempty message_html); simpl;
      rewrite ?elem_of_cons, ?elem_of_nil; naive_solver.
  - intros t. unfold alternative_parts.
    destruct (nonempty message_text), (nonempty message_html); simpl;
      rewrite ?elem_of_cons, ?elem_of_nil; naive_solver.
  - intros Ht Hh. unfold alternative_parts. by rewrite Ht, Hh.
Qed.

End AlternativeParts.

(** C9 at four calls.  With a plain text only and no image,
    [build_message] returns and the alternative container holds the
    plain-text part alone; with an HTML text only and one image, [run]
    returns and the message handed to [sendmail] holds the HTML part alone
    and the image part; with neither text, [run] returns and the
    alternative container of the message sent is empty; with both texts and
    one image, the run ends well and the message handed to [sendmail] holds
    the plain-text part and the HTML part in its alternative container. *)
Lemma run_alternative_parts_witness :
  (∃ st',
     SendEmail.build_message friendly_world "bob@b.com" "alice@a.com" "" ""
       "" "Hi" "hello" "" [] SendEmail.state_init
     = (st', Returned (0, ["alice@a.com"])) ∧
     SendEmail.resolve (S (length (SendEmail.heap st'))) (SendEmail.heap st') 0
     = Some (SendEmail.Multipart "related"
               [("Subject", "Hi"); ("From", "bob@b.com");
                ("To", "alice@a.com"); ("Cc", ""); ("References", "");
                ("In-Reply-To", "")]
               (Some "This is a multi-part message in MIME format.")
               [SendEmail.Multipart "alternative" [] None
                  [SendEmail.Text "hello" "plain"]])) ∧
  (∃ st',
     SendEmail.run friendly_world one_account "bob@b.com" "alice@a.com" ""
       "" "" "Hi" "alerts" "" "<b>hello</b>" ["/opt/img/logo.png"]
       SendEmail.state_init = (st', Returned tt) ∧
     SendEmail.SmtpSendmail "bob@b.com" ["alice@a.com"]
       (SendEmail.Multipart "related"
          [("Subject", "Hi"); ("From", "bob@b.com"); ("To", "alice@a.com");
           ("Cc", ""); ("References", ""); ("In-Reply-To", "")]
          (Some "This is a multi-part message in MIME format.")
          [SendEmail.Multipart "alternative" [] None
             [SendEmail.Text "<b>hello</b>" "html"];
           SendEmail.Image "PNG" "png" [("Content-ID", "<logo.png>")]])
     ∈ SendEmail.trace st') ∧
  (∃ st',
     SendEmail.run friendly_world one_account "bob@b.com" "alice@a.com" ""
       "" "" "Hi" "alerts" "" "" [] SendEmail.state_init
     = (st', Returned tt) ∧
     SendEmail.SmtpSendmail "bob@b.com" ["alice@a.com"]
       (SendEmail.Multipart "related"
          [("Subject", "Hi"); ("From", "bob@b.com"); ("To", "alice@a.com");
           ("Cc", ""); ("References", ""); ("In-Reply-To", "")]
          (Some "This is a multi-part message in MIME format.")
          [SendEmail.Multipart "alternative" [] None []])
     ∈ SendEmail.trace st') ∧
  (let r := SendEmail.run friendly_world one_account "bob@b.com"
              "alice@a.com, carol@c.com" "audit@a.com" "" "" "Hi" "alerts"
              "hello" "<b>hello</b>" ["/opt/img/logo.png"]
              SendEmail.state_init in
   r.2 = Returned tt ∧
   ∃ m, SendEmail.SmtpSendmail "bob@b.com"
          ["alice@a.com"; "carol@c.com"; "audit@a.com"] m
        ∈ SendEmail.trace r.1 ∧
        ∃ hs pre images,
          m = SendEmail.Multipart "related" hs pre
                (SendEmail.Multipart "alternative" [] None
                   [SendEmail.Text "hello" "plain";
                    SendEmail.Text "<b>hello</b>" "html"] :: images)).
Proof.
  split; [|split; [|split]].
  - apply (proj1 (run_alternative_parts friendly_world one_account
                    "bob@b.com" "alice@a.com" "" "" "" "Hi" "alerts" "hello"
                    "" []) []).
    constructor.
  - apply (proj1 (proj2 (run_alternative_parts friendly_world one_account
                           "bob@b.com" "alice@a.com" "" "" "" "Hi" "alerts"
                           "" "<b>hello</b>" ["/opt/img/logo.png"]))
             {["alerts" := alerts_account]} alerts_account ["PNG"]).
    + reflexivity.
    + by vm_compute.
    + repeat constructor.
    + intros ev. reflexivity.
  - apply (proj1 (proj2 (run_alternative_parts friendly_world one_account
                           "bob@b.com" "alice@a.com" "" "" "" "Hi" "alerts"
                           "" "" []))
             {["alerts" := alerts_account]} alerts_account []).
    + reflexivity.
    + by vm_compute.
    + constructor.
    + intros ev. reflexivity.
  - intros r. split; [by vm_compute|].
    assert (∃ m, SendEmail.SmtpSendmail "bob@b.com"
                   ["alice@a.com"; "carol@c.com"; "audit@a.com"] m
                 ∈ SendEmail.trace r.1) as [m Hin].
    { eexists. vm_compute. do 5 right. left. }
    exists m. split; [done|].
    apply (proj1 (proj2 (proj2 (proj2
             (run_alternative_parts friendly_world one_account
                "bob@b.com" "alice@a.com, carol@c.com" "audit@a.com"
                "" "" "Hi" "alerts" "hello" "<b>hello</b>"
                ["/opt/img/logo.png"]))))
             r.1 r.2 _ _ m (surjective_pairing r) Hin).
Defined.

(** ** The further properties on the scenario inputs *)

(** X3 at a domain list that allows the sender and a malformed user
    pattern. *)
Lemma check_allowed_domain_first_witness :
  check_allowed (L := PyModel.lib) {[("", "user@corp.com")]} ["corp.com"] ["*"]
  = Returned true.
Proof.
  apply (check_allowed_domain_first (L := PyModel.lib)).
  - intros d a ->%list_elem_of_singleton ->%elem_of_singleton.
    exists true. by vm_compute.
  - exists "corp.com", ("", "user@corp.com").
    split; [by apply list_elem_of_singleton|].
    split; [by apply elem_of_singleton|by vm_compute].
Defined.

(** X5 at the sets parsed from the reply in a thread. *)
Lemma process_results_renders_witness :
  let p := parse_headers (L := PyModel.lib) reply_in_thread in
  ∃ m to cc,
    process_results (L := PyModel.lib) result_init (header_from p)
      (header_to p) (header_cc p) (header_self p) (header_references p)
      (header_reply_to p) = Returned m ∧
    m !! "to" = Some to ∧ m !! "cc" = Some cc ∧
    (∀ a, a ∈ header_from p → contains (PyModel.formataddr a) to = true) ∧
    (∀ a, a ∈ header_to p → ¬ known_email a.2 (header_self p) →
          contains (PyModel.formataddr a) to = true) ∧
    (∀ a, a ∈ header_cc p → contains (PyModel.formataddr a) cc = true) ∧
    m !! "references" = Some (header_references p) ∧
    m !! "in_reply_to" = Some (header_reply_to p).
Proof.
  intros p. apply (process_results_renders (L := PyModel.lib)).
  intros He. apply (f_equal elements) in He. by vm_compute in He.
Defined.

(** X6 at the reply in a thread, with a mandatory cc address. *)
Lemma run_returns_fields_witness :
  ∃ m,
    ProcessEmailHeaders.run (L := PyModel.lib) reply_in_thread ["audit@a.com"]
      [] [] = ([], Returned m) ∧
    dom m = result_fields ∧
    m !! "in_reply_to" = Some "<3@a.com>" ∧
    m !! "references" = Some "<1@a.com><2@a.com> <3@a.com>".
Proof.
  assert (∃ m, ProcessEmailHeaders.run (L := PyModel.lib) reply_in_thread
                 ["audit@a.com"] [] [] = ([], Returned m)) as [m Hrun].
  { eexists. by vm_compute. }
  exists m. split; [done|].
  destruct (run_returns_fields (L := PyModel.lib) _ _ _ _ _ _ Hrun)
    as (_ & Hdom & Hid & Hrefs & _).
  split; [exact Hdom|]. split; [exact Hid|exact Hrefs].
Defined.

(** X7 at the end-to-end headers and a domain list that does not hold the
    domain of the sender. *)
Lemma run_rejects_unmatched_sender_witness :
  ∃ rejected,
    rejected ∈ header_from (parse_headers (L := PyModel.lib) alice_to_bob) ∧
    ProcessEmailHeaders.run (L := PyModel.lib) alice_to_bob [] ["b.com"] []
    = (["User not permitted: " +:+ PyModel.formataddr rejected], Exited 1).
Proof.
  assert (header_from (parse_headers (L := PyModel.lib) alice_to_bob)
          = {[("Alice", "alice@a.com")]}) as Hfrom by by vm_compute.
  apply (run_rejects_unmatched_sender (L := PyModel.lib)).
  - reflexivity.
  - rewrite Hfrom. intros He. apply (f_equal elements) in He.
    by vm_compute in He.
  - rewrite Hfrom.
    intros d a ->%list_elem_of_singleton ->%elem_of_singleton. by vm_compute.
  - intros u a Hu. by apply elem_of_nil in Hu.
Defined.

(** X8 at the end-to-end headers and a domain list that holds the domain
    of the sender. *)
Lemma run_accepted_witness :
  let p := parse_headers (L := PyModel.lib) alice_to_bob in
  ProcessEmailHeaders.run (L := PyModel.lib) alice_to_bob ["audit@a.com"]
    ["a.com"] []
  = ([], process_results (L := PyModel.lib) result_init (header_from p)
           (header_to p)
           (add_enforced_cc (L := PyModel.lib) ["audit@a.com"] (header_to p)
              (header_cc p) (header_from p))
           (header_self p) (header_references p) (header_reply_to p)) ∧
  (header_self p = ∅ →
   ProcessEmailHeaders.run (L := PyModel.lib) alice_to_bob ["audit@a.com"]
     ["a.com"] []
   = ([], Raised (KeyError "pop from an empty set"))) ∧
  (header_self p ≠ ∅ →
   ∃ m, ProcessEmailHeaders.run (L := PyModel.lib) alice_to_bob
          ["audit@a.com"] ["a.com"] []
        = ([], Returned m)).
Proof.
  intros p.
  apply (run_accepted (L := PyModel.lib) alice_to_bob ["audit@a.com"]
           ["a.com"] []).
  right. by vm_compute.
Defined.

(** X9 at a server that refuses the login: the session stops after the
    fourth call, and [quit] is not called. *)
Lemma send_first_failure_witness :
  let st := SendEmail.State [SendEmail.MIMEText "hello" "plain"] [] in
  let calls := Sent.session alerts_account "bob@b.com" ["alice@a.com"]
                 (SendEmail.Text "hello" "plain") in
  SendEmail.send refusing_world alerts_account "bob@b.com" ["alice@a.com"] 0 st
  = (SendEmail.State [SendEmail.MIMEText "hello" "plain"] (take 4 calls),
     Raised (SMTPException "login")) ∧
  (3 < 5 → SendEmail.SmtpQuit ∉ take 4 calls).
Proof.
  intros st calls.
  apply (send_first_failure refusing_world alerts_account "bob@b.com"
           ["alice@a.com"] 0 (SendEmail.Text "hello" "plain") st 3
           (SendEmail.SmtpLogin "alerts@example.org" "secret")
           (SMTPException "login")).
  - reflexivity.
  - reflexivity.
  - reflexivity.
  - intros j ev' Hj.
    destruct j as [|[|[|j]]]; [intros [= <-]; reflexivity..|lia].
Defined.

(** X10 at a call with both texts, a cc address and one image. *)
Lemma run_sends_witness :
  ∃ st',
    SendEmail.run friendly_world one_account "bob@b.com"
      "alice@a.com, carol@c.com" "audit@a.com" "" "" "Hi" "alerts" "hello"
      "<b>hello</b>" ["/opt/img/logo.png"] SendEmail.state_init
    = (st', Returned tt) ∧
    SendEmail.trace st'
    = (SendEmail.FileRead <$> ["/opt/img/logo.png"]) ++
      Sent.session alerts_account "bob@b.com"
        (Sent.envelope "alice@a.com, carol@c.com" "audit@a.com")
        (Sent.message friendly_world "bob@b.com" "alice@a.com, carol@c.com"
           "audit@a.com" "" "" "Hi" "hello" "<b>hello</b>"
           ["/opt/img/logo.png"] ["PNG"]).
Proof.
  apply (run_sends friendly_world one_account "bob@b.com"
           "alice@a.com, carol@c.com" "audit@a.com" "" "" "Hi" "alerts"
           "hello" "<b>hello</b>" ["/opt/img/logo.png"] ["PNG"]
           {["alerts" := alerts_account]} alerts_account).
  - reflexivity.
  - by vm_compute.
  - repeat constructor.
  - intros ev. reflexivity.
Defined.

(** X11 at a list of three images of which the second cannot be read. *)
Lemma run_unreadable_image_witness :
  ∃ st',
    SendEmail.run friendly_world one_account "bob@b.com" "alice@a.com" "" ""
      "" "Hi" "alerts" "hello" ""
      (["/opt/img/logo.png"] ++ "/opt/img/none.png" :: ["/opt/img/logo.png"])
      SendEmail.state_init
    = (st', Raised (IOError "/opt/img/none.png")) ∧
    SendEmail.trace st'
    = SendEmail.FileRead <$> (["/opt/img/logo.png"] ++ ["/opt/img/none.png"]).
Proof.
  apply (run_unreadable_image friendly_world one_account "bob@b.com"
           "alice@a.com" "" "" "" "Hi" "alerts" "hello" ""
           ["/opt/img/logo.png"] "/opt/img/none.png" ["/opt/img/logo.png"]
           {["alerts" := alerts_account]} alerts_account).
  - reflexivity.
  - by vm_compute.
  - constructor; [by eexists|constructor].
  - reflexivity.
Defined.
